(** * File Concierge: the scan and duplicate-resolution core of file_concierge.py

    A shallow embedding of [scan_directory], [find_duplicate_candidates],
    [hash_file], [find_largest_files] and [print_duplicates], with the parts
    of [pathlib] and [os] they call, and the properties of the rollups, of the
    duplicate groups and of the reports.

    Conventions.
    - A Python [int] is a [Z].
    - A [Path] is the list of its parts relative to the scanned root, so the
      root itself ([Path(".")], whose parts are empty) is [[]].  Every path the
      program builds lies under the root, hence two paths are equal exactly
      when their relative parts are.
    - An insertion-ordered [dict] whose iteration order reaches the output
      ([size_index], [candidates], [hash_buckets]) is a key-unique association
      list in insertion order; a [dict] that is only read by key
      ([ext_stats], [dir_stats], the nested ["ext"] maps) is a [gmap].
    - A call that can raise returns a [result]; the exception classes the two
      [except] clauses tell apart are the constructors of [OSError].
    - [str.lower] and MD5 are parameters of the model: the statements hold
      for every lowering function ([StrLower]) and every digest function; the
      statements about the shape of extension keys say which properties of
      [str.lower] they use ([StrLowerLaws]). *)

From Stdlib Require Import ZArith Ascii String.
From Stdlib.Strings Require Import Byte.
From stdpp Require Import gmap strings list fin_maps sorting pretty.
From Equations.Prop Require Import Equations Logic.

Local Open Scope Z_scope.

(** ** Exceptions *)

Inductive OSError : Type :=
  | FileNotFoundError
  | PermissionError
  | OtherOSError.

Inductive result (A : Type) : Type :=
  | Ok (a : A)
  | Raise (e : OSError).

Arguments Ok {A} a.
Arguments Raise {A} e.

Global Instance OSError_eq_dec : EqDecision OSError.
Proof. solve_decision. Defined.

Global Instance result_eq_dec {A : Type} `{EqDecision A} : EqDecision (result A).
Proof. solve_decision. Defined.

Global Instance byte_eq_dec : EqDecision byte := Byte.byte_eq_dec.

(** [for x in l: st = body(st, x)], where [body] may raise. *)
Fixpoint for_each {A S : Type} (body : S → A → result S) (l : list A) (st : S)
  : result S :=
  match l with
  | [] => Ok st
  | x :: l' =>
      match body st x with
      | Ok st' => for_each body l' st'
      | Raise e => Raise e
      end
  end.

(** ** pathlib *)

Abbreviation Path := (list string).

Module Pathlib.

(** [Path(".")] *)
Definition dot : Path := [].

(** [dirpath / name] *)
Definition joinpath (dirpath : Path) (name : string) : Path := dirpath ++ [name].

(** [path.name]: the final part, or the empty string. *)
Definition name (path : Path) : string := List.last path EmptyString.

(** [s.rfind(c)], with [-1] when [c] does not occur. *)
Fixpoint rfind (c : ascii) (s : string) : Z :=
  match s with
  | EmptyString => -1
  | String a s' =>
      let i := rfind c s' in
      if 0 <=? i then i + 1 else if Ascii.eqb a c then 0 else -1
  end.

(** [s[i:]] for [0 <= i]. *)
Fixpoint slice_from (i : nat) (s : string) : string :=
  match i, s with
  | O, _ => s
  | S i', String _ s' => slice_from i' s'
  | S _, EmptyString => EmptyString
  end.

(** [PurePath.suffix], as [pathlib] defines it up to CPython 3.13:
    [i = name.rfind('.'); name[i:] if 0 < i < len(name) - 1 else ''] *)
Definition suffix (path : Path) : string :=
  let n := name path in
  let i := rfind "." n in
  if (0 <? i) && (i <? Z.of_nat (String.length n) - 1)
  then slice_from (Z.to_nat i) n
  else EmptyString.

(** [path.parents]: the sequence whose item [idx] is [parts[:-idx - 1]],
    of length [len(parts)] for a relative path. *)
Definition parents (path : Path) : list Path :=
  (λ idx, take (length path - idx - 1)%nat path) <$> seq 0 (length path).

(** [str(path) == "."], which holds for the path without parts only. *)
Definition is_dot (path : Path) : bool :=
  match path with
  | [] => true
  | _ => false
  end.

End Pathlib.

(** ** str

    A Python [str] is the string of the bytes of its UTF-8 encoding.  The full
    stop is the byte 46 and occurs in the encoding of no other character, so
    [rfind] and the slice at the last dot above agree with Python's on
    characters, and so do the two comparisons of [suffix], which ask for a
    character before the last dot and for one after it.

    [str.lower] is CPython's Unicode lowercasing.  Its tables are not part of
    the program; the model takes the function as a parameter. *)

Class StrLower : Type := str_lower : string → string.

(** [str.isascii]: every byte is below 128. *)
Definition isascii_char (a : ascii) : bool :=
  match a with
  | Ascii _ _ _ _ _ _ _ b7 => negb b7
  end.

Fixpoint isascii (s : string) : bool :=
  match s with
  | EmptyString => true
  | String a s' => isascii_char a && isascii s'
  end.

(** What [str.lower] does to an ASCII string: the letters A to Z are
    replaced, every other character is kept. *)
Definition ascii_lower_char (a : ascii) : ascii :=
  let n := nat_of_ascii a in
  if ((65 <=? n) && (n <=? 90))%nat then ascii_of_nat (n + 32) else a.

Fixpoint ascii_lower (s : string) : string :=
  match s with
  | EmptyString => EmptyString
  | String a s' => String (ascii_lower_char a) (ascii_lower s')
  end.

(** The facts about [str.lower] that the statements about extension keys
    rest on.  CPython lowers a string character by character, each to at least
    one character, and only U+03A3 looks at its neighbours, for cased letters,
    which the full stop is not: so a leading full stop is kept and what
    follows is lowered as it is alone, and only the empty string is lowered to
    the empty string.  On an ASCII string the lowering is [ascii_lower]. *)
Class StrLowerLaws `{!StrLower} : Prop := {
  str_lower_dot : ∀ s : string,
    str_lower (String "." s) = String "." (str_lower s);
  str_lower_nonempty : ∀ s : string,
    str_lower s = EmptyString → s = EmptyString;
  str_lower_ascii : ∀ s : string,
    isascii s = true → str_lower s = ascii_lower s
}.

(** The lowering used where a statement is run on an example; the names of
    the examples are ASCII. *)
Definition example_lower : StrLower := ascii_lower.

(** From here on [str.lower] is any function. *)
Section model.

Context `{!StrLower}.

(** ** Extension keys

    [ext = path.suffix.lower() or "<no_ext>"] *)

Definition NO_EXT : string := "<no_ext>".

Definition extension_key (path : Path) : string :=
  let ext := str_lower (Pathlib.suffix path) in
  match ext with
  | EmptyString => NO_EXT
  | _ => ext
  end.

(** ** The file system seen by one run

    [walk] is what [os.walk(root)] yields, each [dirpath] relative to the
    root, with its [filenames] (the directory names are not used);
    [stat_size path] is [path.stat().st_size]; [read_bytes path] is the
    content that [path.open("rb")] and the reads deliver, or the error one of
    them raises. *)

Record FileSystem : Type := {
  walk : list (Path * list string);
  stat_size : Path → result Z;
  read_bytes : Path → result (list byte)
}.

(** ** Accumulators *)

(** [{"count": 0, "size": 0}] *)
Record ExtStat : Type := { ext_count : Z; ext_size : Z }.

(** [{"count": 0, "size": 0, "ext": defaultdict(...)}] *)
Record DirStat : Type := {
  dir_count : Z;
  dir_size : Z;
  dir_ext : gmap string ExtStat
}.

Definition new_ext_stat : ExtStat := {| ext_count := 0; ext_size := 0 |}.

Definition new_dir_stat : DirStat :=
  {| dir_count := 0; dir_size := 0; dir_ext := ∅ |}.

(** The value of [d[k]] for a [defaultdict] [d]: the entry, or the default
    the factory makes. *)
Definition ext_lookup (m : gmap string ExtStat) (ext : string) : ExtStat :=
  default new_ext_stat (m !! ext).

Definition dir_lookup (m : gmap Path DirStat) (dir : Path) : DirStat :=
  default new_dir_stat (m !! dir).

(** [m[ext]["count"] += 1; m[ext]["size"] += size] *)
Definition ext_bump (ext : string) (size : Z) (m : gmap string ExtStat)
  : gmap string ExtStat :=
  let s := ext_lookup m ext in
  <[ext := {| ext_count := ext_count s + 1; ext_size := ext_size s + size |}]> m.

(** The four increments of one ancestor, lines 88 to 91. *)
Definition dir_bump (ext : string) (size : Z) (m : gmap Path DirStat) (anc : Path)
  : gmap Path DirStat :=
  let d := dir_lookup m anc in
  <[anc := {| dir_count := dir_count d + 1;
              dir_size := dir_size d + size;
              dir_ext := ext_bump ext size (dir_ext d) |}]> m.

(** [d[k].append(v)] on a [defaultdict(list)] kept in insertion order. *)
Fixpoint od_append {K V : Type} `{EqDecision K} (k : K) (v : V)
    (d : list (K * list V)) : list (K * list V) :=
  match d with
  | [] => [(k, [v])]
  | (k', l) :: d' =>
      if decide (k' = k) then (k', l ++ [v]) :: d' else (k', l) :: od_append k v d'
  end.

(** ** scan_directory *)

Record ScanResult : Type := {
  all_files : list (Path * Z);
  ext_stats : gmap string ExtStat;
  size_index : list (Z * list Path);
  dir_stats : gmap Path DirStat;
  total_files : Z;
  total_size : Z
}.

Definition scan_init : ScanResult :=
  {| all_files := []; ext_stats := ∅; size_index := []; dir_stats := ∅;
     total_files := 0; total_size := 0 |}.

(** Lines 79 to 85: the directory of a file and all its ancestors, the root
    included.  [rel_dir] is [dirpath.relative_to(root)], which for a path
    given by its parts below the root is the path itself. *)
Definition ancestors (rel_dir : Path) : list Path :=
  if Pathlib.is_dot rel_dir then [Pathlib.dot]
  else rel_dir :: Pathlib.parents rel_dir.

(** Lines 65 to 91: the updates for one file whose size is known. *)
Definition record_file (rel_dir : Path) (name : string) (size : Z)
    (st : ScanResult) : ScanResult :=
  let path := Pathlib.joinpath rel_dir name in
  let ext := extension_key path in
  {| all_files := all_files st ++ [(path, size)];
     ext_stats := ext_bump ext size (ext_stats st);
     size_index := od_append size path (size_index st);
     dir_stats := foldl (dir_bump ext size) (dir_stats st) (ancestors rel_dir);
     total_files := total_files st + 1;
     total_size := total_size st + size |}.

(** Lines 58 to 63: the body of the inner loop.  Only the two listed
    exceptions are caught; any other one leaves the function. *)
Definition visit_file (fs : FileSystem) (rel_dir : Path) (st : ScanResult)
    (name : string) : result ScanResult :=
  match stat_size fs (Pathlib.joinpath rel_dir name) with
  | Ok size => Ok (record_file rel_dir name size st)
  | Raise FileNotFoundError => Ok st
  | Raise PermissionError => Ok st
  | Raise e => Raise e
  end.

Definition visit_dir (fs : FileSystem) (st : ScanResult)
    (entry : Path * list string) : result ScanResult :=
  for_each (visit_file fs entry.1) entry.2 st.

Definition scan_directory (fs : FileSystem) : result ScanResult :=
  for_each (visit_dir fs) (walk fs) scan_init.

(** ** hash_file

    The state of the [hashlib] object is the message fed so far, and
    [md5 message] is its [hexdigest].  [f.read(chunk_size)] takes the next
    [chunk_size] bytes of what is left of the file; the loop stops at the
    first empty chunk. *)

Equations? read_loop (chunk_size : nat) (f : list byte) (h : list byte)
  : list byte by wf (length f) lt :=
  read_loop chunk_size f h with inspect (take chunk_size f) := {
    | exist _ [] _ := h
    | exist _ (b :: chunk) E :=
        read_loop chunk_size (drop chunk_size f) (h ++ b :: chunk) }.
Proof.
  assert (Hl : length (take chunk_size f) = length (b :: chunk)) by (by rewrite E).
  rewrite length_take in Hl. rewrite length_drop. simpl in Hl. lia.
Qed.

Definition DEFAULT_CHUNK_SIZE : nat := Z.to_nat (1024 * 1024).

Section Hasher.

Variable md5 : list byte → string.

Definition hash_file_chunked (chunk_size : nat) (fs : FileSystem) (path : Path)
  : result string :=
  match read_bytes fs path with
  | Ok content => Ok (md5 (read_loop chunk_size content []))
  | Raise e => Raise e
  end.

Definition hash_file : FileSystem → Path → result string :=
  hash_file_chunked DEFAULT_CHUNK_SIZE.

End Hasher.

(** ** find_duplicate_candidates

    The function is run against a hasher [hasher : Path → result string];
    [hashed] records, in order, the paths it was called on. *)

Record Resolution : Type := {
  duplicates : list (list Path);
  hashed : list Path
}.

(** Lines 119 to 125: the hash buckets of one candidate bucket.  Every
    [OSError] is caught, so a path that cannot be hashed is left out. *)
Definition hash_bucket (hasher : Path → result string) (paths : list Path)
    (calls : list Path) : list (string * list Path) * list Path :=
  foldl (λ acc path,
           match hasher path with
           | Ok file_hash => (od_append file_hash path acc.1, acc.2 ++ [path])
           | Raise _ => (acc.1, acc.2 ++ [path])
           end)
        ([], calls) paths.

(** Lines 128 to 130: the hash buckets with more than one path are appended
    to the result. *)
Definition keep_groups (dups : list (list Path))
    (hash_buckets : list (string * list Path)) : list (list Path) :=
  foldl (λ dups hb,
           if bool_decide (1 < length hb.2)%nat then dups ++ [hb.2] else dups)
        dups hash_buckets.

(** Line 114: the buckets with more than one path, in the order of the
    index. *)
Definition candidates (size_index : list (Z * list Path)) : list (Z * list Path) :=
  filter (λ sp, (1 < length sp.2)%nat) size_index.

Definition resolve (hasher : Path → result string)
    (size_index : list (Z * list Path)) : Resolution :=
  foldl (λ r sp,
           let hb := hash_bucket hasher sp.2 (hashed r) in
           {| duplicates := keep_groups (duplicates r) hb.1; hashed := hb.2 |})
        {| duplicates := []; hashed := [] |}
        (candidates size_index).

Definition find_duplicate_candidates (hasher : Path → result string)
    (size_index : list (Z * list Path)) : list (list Path) :=
  duplicates (resolve hasher size_index).

(** Lines 236 and 254 of [main]: scan, then resolve the size index. *)
Definition scan_and_resolve (md5 : list byte → string) (fs : FileSystem)
  : result (list (list Path)) :=
  match scan_directory fs with
  | Ok data => Ok (find_duplicate_candidates (hash_file md5 fs) (size_index data))
  | Raise e => Raise e
  end.

(** ** find_largest_files

    [sorted(all_files, key=lambda x: x[1], reverse=True)] is Python's stable
    sort: the sizes never increase along the result and records of equal size
    keep the order they had.  That arrangement is unique; it is built here by
    inserting each record, from the last to the first, in front of the first
    record that is not larger. *)

Fixpoint insert_desc (x : Path * Z) (l : list (Path * Z)) : list (Path * Z) :=
  match l with
  | [] => [x]
  | y :: l' => if y.2 <=? x.2 then x :: y :: l' else y :: insert_desc x l'
  end.

Definition sorted_by_size_desc (all_files : list (Path * Z)) : list (Path * Z) :=
  foldr insert_desc [] all_files.

(** [l[:stop]]: a negative [stop] counts from the end. *)
Definition slice_to {A : Type} (stop : Z) (l : list A) : list A :=
  if 0 <=? stop then take (Z.to_nat stop) l
  else take (Z.to_nat (Z.of_nat (length l) + stop)) l.

Definition find_largest_files (all_files : list (Path * Z)) (top_n : Z)
  : list (Path * Z) :=
  slice_to top_n (sorted_by_size_desc all_files).

(** ** print_duplicates

    The output is the list of the strings given to [print], one per call.
    [str_path] is [str] on paths; [pretty] writes an [int] in decimal. *)

Definition nl : string := String (ascii_of_nat 10) EmptyString.

Definition path_line (str_path : Path → string) (path : Path) : string :=
  "  - " +:+ str_path path.

(** Lines 215 to 219, with [i] the number [enumerate] gives the first group. *)
Fixpoint print_groups (str_path : Path → string) (i : Z)
    (groups : list (list Path)) : list string :=
  match groups with
  | [] => []
  | group :: rest =>
      ("Group " +:+ pretty i +:+ " (" +:+
         pretty (Z.of_nat (length group)) +:+ " files):")
      :: (path_line str_path <$> group)
      ++ EmptyString :: print_groups str_path (i + 1) rest
  end.

Definition print_duplicates (str_path : Path → string)
    (duplicates : list (list Path)) (max_groups : Z) : list string :=
  (nl +:+ "=== Possible Duplicates ===") ::
  match duplicates with
  | [] => ["No likely duplicates found (at least by size + content hash)."%string]
  | _ =>
      ("Showing up to " +:+ pretty max_groups +:+ " groups of duplicates:" +:+ nl)
      :: print_groups str_path 1 (slice_to max_groups duplicates)
  end.

(** ** Vocabulary of the statements *)

(** A file the scan got a size for: its directory (relative to the root),
    its name and its size. *)
Record FileRecord : Type := {
  rec_dir : Path;
  rec_name : string;
  rec_size : Z
}.

Definition rec_path (r : FileRecord) : Path :=
  Pathlib.joinpath (rec_dir r) (rec_name r).

Definition rec_ext (r : FileRecord) : string := extension_key (rec_path r).

(** The entries the walk enumerates, in order: directory and file name. *)
Definition entries (w : list (Path * list string)) : list (Path * string) :=
  w ≫= (λ e, (λ name, (e.1, name)) <$> e.2).

Definition listed (fs : FileSystem) : list Path :=
  (λ e, Pathlib.joinpath e.1 e.2) <$> entries (walk fs).

Definition stat_record (fs : FileSystem) (e : Path * string) : option FileRecord :=
  match stat_size fs (Pathlib.joinpath e.1 e.2) with
  | Ok size => Some {| rec_dir := e.1; rec_name := e.2; rec_size := size |}
  | Raise _ => None
  end.

(** The files of the tree whose size the scan could read, in walk order. *)
Definition records (fs : FileSystem) : list FileRecord :=
  omap (stat_record fs) (entries (walk fs)).

Definition file_count (recs : list FileRecord) : Z := Z.of_nat (length recs).

Definition sum_sizes (recs : list FileRecord) : Z :=
  foldr (λ r acc, rec_size r + acc) 0 recs.

(** The files in directory [dir] or in a directory below it. *)
Definition under (dir : Path) (recs : list FileRecord) : list FileRecord :=
  filter (λ r, dir `prefix_of` rec_dir r) recs.

Definition with_ext (ext : string) (recs : list FileRecord) : list FileRecord :=
  filter (λ r, rec_ext r = ext) recs.

(** Sums over the extension keys of one scope. *)
Definition map_sum (g : ExtStat → Z) (m : gmap string ExtStat) : Z :=
  map_fold (λ _ s acc, g s + acc) 0 m.

Definition sum_ext_counts (m : gmap string ExtStat) : Z := map_sum ext_count m.

Definition sum_ext_sizes (m : gmap string ExtStat) : Z := map_sum ext_size m.

(** The per-extension entries of a directory add up to its totals. *)
Definition ext_sums_match (d : DirStat) : Prop :=
  sum_ext_counts (dir_ext d) = dir_count d ∧
  sum_ext_sizes (dir_ext d) = dir_size d.

(** The entries of the walk whose [stat] raises one of the two exceptions
    that [scan_directory] catches. *)
Definition skipped (fs : FileSystem) (path : Path) : Prop :=
  stat_size fs path = Raise FileNotFoundError ∨
  stat_size fs path = Raise PermissionError.

(** An extension as [pathlib] produces it: a dot followed by at least one
    character. *)
Definition real_extension (ext : string) : Prop :=
  ∃ a rest, ext = String "."%char (String a rest).

(** The updates of lines 65 to 91 for one record, and for a list of them
    from the initial state. *)
Definition add_record (st : ScanResult) (r : FileRecord) : ScanResult :=
  record_file (rec_dir r) (rec_name r) (rec_size r) st.

Definition aggregate (recs : list FileRecord) : ScanResult :=
  foldl add_record scan_init recs.

(** The increments of lines 88 to 91 on one directory entry. *)
Definition dir_add (ext : string) (size : Z) (d : DirStat) : DirStat :=
  {| dir_count := dir_count d + 1;
     dir_size := dir_size d + size;
     dir_ext := ext_bump ext size (dir_ext d) |}.

Definition ext_add (size : Z) (s : ExtStat) : ExtStat :=
  {| ext_count := ext_count s + 1; ext_size := ext_size s + size |}.

(** The statistics of one scope are the rollup of a list of records: the
    count, the total size and, for every extension key, the count and size of
    the records with that key. *)
Definition rollup_of (d : DirStat) (recs : list FileRecord) : Prop :=
  dir_count d = file_count recs ∧
  dir_size d = sum_sizes recs ∧
  ∀ ext, ext_lookup (dir_ext d) ext =
         {| ext_count := file_count (with_ext ext recs);
            ext_size := sum_sizes (with_ext ext recs) |}.

(** [d[k]] for an ordered [defaultdict(list)], read without creating the
    entry: the list of the first entry with key [k], or the empty list. *)
Fixpoint od_get {K V : Type} `{EqDecision K} (k : K) (d : list (K * list V))
  : list V :=
  match d with
  | [] => []
  | (k', l) :: d' => if decide (k' = k) then l else od_get k d'
  end.

(** The ordered dictionary built by appending the pairs one after another. *)
Definition od_of {K V : Type} `{EqDecision K} (kvs : list (K * V))
  : list (K * list V) :=
  foldl (λ d kv, od_append kv.1 kv.2 d) [] kvs.

(** The file system of another run over a different enumeration. *)
Definition with_walk (fs : FileSystem) (w : list (Path * list string))
  : FileSystem :=
  {| walk := w; stat_size := stat_size fs; read_bytes := read_bytes fs |}.

(** The paths of a bucket that the hasher gives a digest, each with its
    digest, in bucket order. *)
Definition hash_pairs (hasher : Path → result string) (paths : list Path)
  : list (string * Path) :=
  omap (λ p, match hasher p with
             | Ok h => Some (h, p)
             | Raise _ => None
             end) paths.

(** The groups one bucket contributes. *)
Definition groups_of (hasher : Path → result string) (paths : list Path)
  : list (list Path) :=
  filter (λ g, (1 < length g)%nat) (od_of (hash_pairs hasher paths)).*2.

(** The paths of a bucket with digest [h], in bucket order. *)
Definition same_digest (hasher : Path → result string) (h : string)
    (paths : list Path) : list Path :=
  filter (λ p, hasher p = Ok h) paths.

(** A tree whose root holds no file at all. *)
Definition empty_tree : FileSystem :=
  {| walk := [(Pathlib.dot, [])];
     stat_size := λ _, Raise FileNotFoundError;
     read_bytes := λ _, Raise FileNotFoundError |}.

(** A name without any dot. *)
Fixpoint no_dot (s : string) : Prop :=
  match s with
  | EmptyString => True
  | String a s' => a ≠ "."%char ∧ no_dot s'
  end.

(** ** Example trees

    [toy_digest] stands in for MD5 where a statement is run on an example:
    it returns the message itself, so it tells any two contents apart. *)

Definition toy_digest (message : list byte) : string :=
  string_of_list_byte message.

Definition not_found {A : Type} : result A := Raise FileNotFoundError.

(** Scenario A: [a.txt] of 100 bytes in the root, [b.txt] of 50 bytes in
    [sub/]. *)
Definition scenario_A : FileSystem :=
  {| walk := [(Pathlib.dot, ["a.txt"]); (["sub"], ["b.txt"])]%string;
     stat_size := λ path,
       if decide (path = ["a.txt"%string]) then Ok 100
       else if decide (path = ["sub"; "b.txt"]%string) then Ok 50
       else not_found;
     read_bytes := λ path,
       if decide (path = ["a.txt"%string]) then Ok (replicate 100 "a"%byte)
       else if decide (path = ["sub"; "b.txt"]%string) then Ok (replicate 50 "b"%byte)
       else not_found |}.

(** Scenario B: three files of 200 bytes, two of them with the same content. *)
Definition scenario_B : FileSystem :=
  {| walk := [(Pathlib.dot, ["x.bin"; "y.bin"; "z.bin"])]%string;
     stat_size := λ path,
       if decide (path ∈ [["x.bin"]; ["y.bin"]; ["z.bin"]]%string) then Ok 200
       else not_found;
     read_bytes := λ path,
       if decide (path ∈ [["x.bin"]; ["y.bin"]]%string) then Ok (replicate 200 "a"%byte)
       else if decide (path = ["z.bin"%string]) then Ok (replicate 200 "b"%byte)
       else not_found |}.

(** Scenario B seen by a second run, in which a file outside the walk has
    appeared. *)
Definition scenario_B_again : FileSystem :=
  {| walk := walk scenario_B;
     stat_size := λ path,
       if decide (path = ["later.bin"%string]) then Ok 200
       else stat_size scenario_B path;
     read_bytes := λ path,
       if decide (path = ["later.bin"%string]) then Ok (replicate 200 "a"%byte)
       else read_bytes scenario_B path |}.

(** A root with three names, the second of which vanished before [stat]. *)
Definition scenario_vanished : FileSystem :=
  {| walk := [(Pathlib.dot, ["a.txt"; "gone.txt"; "b.txt"])]%string;
     stat_size := λ path,
       if decide (path = ["a.txt"%string]) then Ok 100
       else if decide (path = ["b.txt"%string]) then Ok 50
       else not_found;
     read_bytes := λ _, not_found |}.

(** A size index with a bucket of one path and a bucket of three, and a
    hasher that cannot read the second path of the latter. *)
Definition example_index : list (Z * list Path) :=
  [(100, [["a.txt"]]); (200, [["x.bin"]; ["u.bin"]; ["y.bin"]])]%string.

Definition example_hasher (path : Path) : result string :=
  if decide (path = ["u.bin"%string]) then Raise PermissionError
  else if decide (path = ["a.txt"%string]) then Ok "d1"%string
  else Ok "d2"%string.

(** The sum of the sizes of a file list. *)
Definition sum_file_sizes (files : list (Path * Z)) : Z :=
  foldr (λ f acc, f.2 + acc) 0 files.

(** A path with the size [stat] gives it, if any. *)
Definition stat_file (fs : FileSystem) (path : Path) : option (Path * Z) :=
  match stat_size fs path with
  | Ok size => Some (path, size)
  | Raise _ => None
  end.

(** A record is at least as large as the next one. *)
Definition size_desc (x y : Path * Z) : Prop := y.2 ≤ x.2.

(** A root in which the [stat] of one name raises an error of another
    class. *)
Definition scenario_broken : FileSystem :=
  {| walk := [(Pathlib.dot, ["a.txt"; "loop"; "b.txt"])]%string;
     stat_size := λ path,
       if decide (path = ["a.txt"%string]) then Ok 100
       else if decide (path = ["loop"%string]) then Raise OtherOSError
       else not_found;
     read_bytes := λ _, not_found |}.


(** Five records, two pairs of which have equal sizes. *)
Definition example_files : list (Path * Z) :=
  [(["a"], 3); (["b"], 5); (["c"], 3); (["d"], 9); (["e"], 5)]%string.

(** Two groups, and [str] as the parts joined by a slash. *)
Definition example_groups : list (list Path) :=
  [[["x.bin"]; ["y.bin"]]; [["sub"; "p"]; ["sub"; "q"]; ["r"]]]%string.

Definition example_str_path (path : Path) : string := String.concat "/" path.

(** The lines of one shown group of the report: the line with its number
    and its member count, one line per member, an empty line. *)
Definition group_block (str_path : Path → string) (number : Z)
    (group : list Path) : list string :=
  ("Group " +:+ pretty number +:+ " (" +:+
     pretty (Z.of_nat (length group)) +:+ " files):")
  :: (path_line str_path <$> group) ++ [EmptyString].

(** * Properties *)

(** ** Loops *)

Lemma for_each_app {A S : Type} (body : S → A → result S) (l k : list A) (st : S) :
  for_each body (l ++ k) st =
  match for_each body l st with
  | Ok st' => for_each body k st'
  | Raise e => Raise e
  end.
Proof.
  revert st. induction l as [|x l IH]; intros st; simpl; [done|].
  destruct (body st x); [apply IH | done].
Qed.

Lemma for_each_ext {A S : Type} (f g : S → A → result S) (l : list A) (st : S) :
  (∀ s x, x ∈ l → f s x = g s x) → for_each f l st = for_each g l st.
Proof.
  revert st. induction l as [|x l IH]; intros st Hfg; simpl; [done|].
  rewrite Hfg by left. destruct (g st x); [|done].
  apply IH. intros s y Hy. apply Hfg. by right.
Qed.

(** The two nested loops of [scan_directory] are one loop over the entries. *)
Lemma scan_loop_entries (fs : FileSystem) (w : list (Path * list string))
    (st : ScanResult) :
  for_each (visit_dir fs) w st =
  for_each (λ s e, visit_file fs e.1 s e.2) (entries w) st.
Proof.
  revert st. induction w as [|[d names] w IH]; intros st; [done|].
  unfold entries. rewrite bind_cons. fold (entries w).
  rewrite for_each_app. simpl. unfold visit_dir at 1. simpl.
  assert (Hin : ∀ s,
    for_each (visit_file fs d) names s =
    for_each (λ s e, visit_file fs e.1 s e.2) ((λ name, (d, name)) <$> names) s).
  { clear. induction names as [|n names IHn]; intros s; simpl; [done|].
    destruct (visit_file fs d s n); [apply IHn | done]. }
  rewrite Hin. destruct (for_each _ (_ <$> names) st); [apply IH | done].
Qed.

Lemma scan_loop_records (fs : FileSystem) (es : list (Path * string))
    (st st' : ScanResult) :
  for_each (λ s e, visit_file fs e.1 s e.2) es st = Ok st' →
  st' = foldl add_record st (omap (stat_record fs) es).
Proof.
  revert st. induction es as [|[d n] es IH]; intros st; simpl.
  - by intros [= <-].
  - unfold visit_file at 1, stat_record at 1. simpl.
    destruct (stat_size fs (Pathlib.joinpath d n)) as [size|[]]; simpl;
      try done; apply IH.
Qed.

Lemma scan_loop_total (fs : FileSystem) (es : list (Path * string))
    (st : ScanResult) :
  (∀ e, e ∈ es →
     stat_size fs (Pathlib.joinpath e.1 e.2) ≠ Raise OtherOSError) →
  for_each (λ s e, visit_file fs e.1 s e.2) es st =
  Ok (foldl add_record st (omap (stat_record fs) es)).
Proof.
  revert st. induction es as [|[d n] es IH]; intros st Hok; simpl; [done|].
  assert (Hes : ∀ e, e ∈ es →
    stat_size fs (Pathlib.joinpath e.1 e.2) ≠ Raise OtherOSError).
  { intros e He. apply Hok. by right. }
  pose proof (Hok (d, n) ltac:(left)) as Hdn. simpl in Hdn.
  unfold visit_file at 1, stat_record at 1. simpl.
  destruct (stat_size fs (Pathlib.joinpath d n)) as [size|[]]; simpl;
    try done; by apply IH.
Qed.

(** A scan that returns has aggregated exactly the records of the tree. *)
Lemma scan_directory_Ok (fs : FileSystem) (r : ScanResult) :
  scan_directory fs = Ok r → r = aggregate (records fs).
Proof.
  unfold scan_directory. rewrite scan_loop_entries. apply scan_loop_records.
Qed.

(** The scan returns unless some [stat] raises an exception that is not
    caught. *)
Lemma scan_directory_total (fs : FileSystem) :
  (∀ path, path ∈ listed fs → stat_size fs path ≠ Raise OtherOSError) →
  scan_directory fs = Ok (aggregate (records fs)).
Proof.
  intros Hok. unfold scan_directory. rewrite scan_loop_entries.
  apply scan_loop_total. intros e He. apply Hok.
  unfold listed. apply list_elem_of_fmap. by exists e.
Qed.

Lemma aggregate_snoc (recs : list FileRecord) (r : FileRecord) :
  aggregate (recs ++ [r]) = add_record (aggregate recs) r.
Proof. unfold aggregate. by rewrite foldl_app. Qed.

(** A record is an entry of the walk together with the size [stat] gave. *)
Lemma elem_of_records (fs : FileSystem) (r : FileRecord) :
  r ∈ records fs ↔
  (rec_dir r, rec_name r) ∈ entries (walk fs) ∧
  stat_size fs (rec_path r) = Ok (rec_size r).
Proof.
  unfold records. rewrite list_elem_of_omap. split.
  - intros ([d n] & He & Hr). unfold stat_record in Hr. simpl in Hr.
    destruct (stat_size fs (Pathlib.joinpath d n)) as [size|] eqn:Hs; [|done].
    injection Hr as <-. by split.
  - intros [He Hs]. exists (rec_dir r, rec_name r). split; [done|].
    unfold stat_record, rec_path in *. simpl. rewrite Hs. by destruct r.
Qed.

(** ** Paths and their ancestors *)

Lemma elem_of_parents (d p : Path) :
  d ∈ Pathlib.parents p ↔ d `prefix_of` p ∧ d ≠ p.
Proof.
  unfold Pathlib.parents. rewrite list_elem_of_fmap. split.
  - intros (idx & -> & Hidx). apply elem_of_seq in Hidx. split.
    + exists (drop (length p - idx - 1) p). by rewrite take_drop.
    + intros Heq. apply (f_equal length) in Heq.
      rewrite length_take in Heq. lia.
  - intros [[k ->] Hne]. destruct k as [|x k].
    { by rewrite app_nil_r in Hne. }
    exists (length k). split.
    + rewrite length_app. simpl.
      replace (length d + S (length k) - length k - 1)%nat with (length d) by lia.
      by rewrite take_app_length.
    + apply elem_of_seq. rewrite length_app. simpl. lia.
Qed.

Lemma NoDup_parents (p : Path) : NoDup (Pathlib.parents p).
Proof.
  unfold Pathlib.parents. apply NoDup_fmap_2_strong; [|apply NoDup_seq].
  intros x y Hx Hy Heq. apply elem_of_seq in Hx, Hy.
  apply (f_equal length) in Heq. rewrite !length_take in Heq. lia.
Qed.

(** The chain built at lines 81 to 85 holds exactly the prefixes of the
    directory, the root and the directory itself included, each once. *)
Lemma elem_of_ancestors (d rel_dir : Path) :
  d ∈ ancestors rel_dir ↔ d `prefix_of` rel_dir.
Proof.
  unfold ancestors. destruct rel_dir as [|x p]; simpl.
  - rewrite list_elem_of_singleton. unfold Pathlib.dot. split.
    + by intros ->.
    + intros [k Hk]. symmetry in Hk. by apply app_eq_nil in Hk as [-> _].
  - rewrite elem_of_cons, elem_of_parents. split.
    + intros [-> | [Hp _]]; done.
    + intros Hp. destruct (decide (d = x :: p)); [by left | by right].
Qed.

Lemma NoDup_ancestors (rel_dir : Path) : NoDup (ancestors rel_dir).
Proof.
  unfold ancestors. destruct rel_dir as [|x p]; simpl.
  - apply NoDup_singleton.
  - apply NoDup_cons. split; [|apply NoDup_parents].
    rewrite elem_of_parents. by intros [_ Hne].
Qed.

(** ** The auto-creating maps *)

Lemma ext_lookup_bump (ext ext' : string) (size : Z) (m : gmap string ExtStat) :
  ext_lookup (ext_bump ext size m) ext' =
  if decide (ext = ext') then ext_add size (ext_lookup m ext') else ext_lookup m ext'.
Proof.
  unfold ext_bump, ext_lookup at 1. rewrite lookup_insert.
  case_decide; by subst.
Qed.

Lemma dir_bump_insert (ext : string) (size : Z) (m : gmap Path DirStat) (anc : Path) :
  dir_bump ext size m anc = <[anc := dir_add ext size (dir_lookup m anc)]> m.
Proof. done. Qed.

Lemma dir_lookup_bump (ext : string) (size : Z) (m : gmap Path DirStat)
    (anc d : Path) :
  dir_lookup (dir_bump ext size m anc) d =
  if decide (anc = d) then dir_add ext size (dir_lookup m d) else dir_lookup m d.
Proof.
  rewrite dir_bump_insert. unfold dir_lookup at 1. rewrite lookup_insert.
  case_decide; by subst.
Qed.

Lemma dir_bump_is_Some (ext : string) (size : Z) (m : gmap Path DirStat)
    (anc d : Path) :
  is_Some (dir_bump ext size m anc !! d) ↔ anc = d ∨ is_Some (m !! d).
Proof.
  rewrite dir_bump_insert, lookup_insert. case_decide; simpl.
  - split; [by left | by eauto].
  - split; [by right | by intros [?|?]].
Qed.

(** One pass over a chain without repetition bumps each of its directories
    once and leaves every other directory alone. *)
Lemma dir_lookup_chain (ext : string) (size : Z) (ancs : list Path)
    (m : gmap Path DirStat) (d : Path) :
  NoDup ancs →
  dir_lookup (foldl (dir_bump ext size) m ancs) d =
  if decide (d ∈ ancs) then dir_add ext size (dir_lookup m d) else dir_lookup m d.
Proof.
  revert m. induction ancs as [|a ancs IH]; intros m Hnd; cbn [foldl].
  - case_decide as Hd; [by apply not_elem_of_nil in Hd | done].
  - apply NoDup_cons in Hnd as [Ha Hnd]. rewrite IH by done.
    rewrite dir_lookup_bump.
    destruct (decide (d ∈ a :: ancs)) as [Hd'|Hd'],
      (decide (d ∈ ancs)) as [Hd|Hd], (decide (a = d)) as [Heq|Hne];
      subst; try done.
    all: try by (exfalso; apply Hd'; set_solver).
    apply elem_of_cons in Hd' as [?|?]; by subst.
Qed.

Lemma dir_chain_is_Some (ext : string) (size : Z) (ancs : list Path)
    (m : gmap Path DirStat) (d : Path) :
  is_Some (foldl (dir_bump ext size) m ancs !! d) ↔ d ∈ ancs ∨ is_Some (m !! d).
Proof.
  revert m. induction ancs as [|a ancs IH]; intros m; simpl.
  - split; [by right | intros [[]%not_elem_of_nil|?]; done].
  - rewrite IH, dir_bump_is_Some, elem_of_cons.
    split; [intros [?|[?|?]] | intros [[?|?]|?]]; subst; auto.
Qed.

(** ** Counting records *)

Lemma file_count_snoc (recs : list FileRecord) (r : FileRecord) :
  file_count (recs ++ [r]) = file_count recs + 1.
Proof. unfold file_count. rewrite length_app. simpl. lia. Qed.

Lemma sum_sizes_app (recs recs' : list FileRecord) :
  sum_sizes (recs ++ recs') = sum_sizes recs + sum_sizes recs'.
Proof.
  unfold sum_sizes. induction recs as [|r recs IH]; simpl; [done|].
  rewrite IH. lia.
Qed.

Lemma sum_sizes_snoc (recs : list FileRecord) (r : FileRecord) :
  sum_sizes (recs ++ [r]) = sum_sizes recs + rec_size r.
Proof. rewrite sum_sizes_app. unfold sum_sizes. simpl. lia. Qed.

Lemma under_snoc (d : Path) (recs : list FileRecord) (r : FileRecord) :
  under d (recs ++ [r]) =
  if decide (d `prefix_of` rec_dir r) then under d recs ++ [r] else under d recs.
Proof.
  unfold under. rewrite filter_app, filter_cons, filter_nil.
  case_decide; [done | by rewrite app_nil_r].
Qed.

Lemma with_ext_snoc (ext : string) (recs : list FileRecord) (r : FileRecord) :
  with_ext ext (recs ++ [r]) =
  if decide (rec_ext r = ext) then with_ext ext recs ++ [r] else with_ext ext recs.
Proof.
  unfold with_ext. rewrite filter_app, filter_cons, filter_nil.
  case_decide; [done | by rewrite app_nil_r].
Qed.

Lemma under_root (recs : list FileRecord) : under Pathlib.dot recs = recs.
Proof.
  unfold under. induction recs as [|r recs IH]; [done|].
  rewrite filter_cons, IH. rewrite decide_True; [done|].
  by exists (rec_dir r).
Qed.

(** ** Rollups (C1) *)

Lemma rollup_of_new : rollup_of new_dir_stat [].
Proof. by repeat split. Qed.

Lemma rollup_of_add (d : DirStat) (recs : list FileRecord) (r : FileRecord) :
  rollup_of d recs →
  rollup_of (dir_add (rec_ext r) (rec_size r) d) (recs ++ [r]).
Proof.
  intros (Hc & Hs & He). split; [|split]; simpl.
  - rewrite file_count_snoc. lia.
  - rewrite sum_sizes_snoc. lia.
  - intros ext. rewrite ext_lookup_bump, with_ext_snoc, He.
    case_decide; [|done].
    unfold ext_add. simpl. by rewrite file_count_snoc, sum_sizes_snoc.
Qed.

Lemma dir_stats_add_record (st : ScanResult) (r : FileRecord) :
  dir_stats (add_record st r) =
  foldl (dir_bump (rec_ext r) (rec_size r)) (dir_stats st) (ancestors (rec_dir r)).
Proof. done. Qed.

(** The effect of one file on the entry of any directory: one increment if
    the directory is the file's own or one above it, none otherwise. *)
Lemma add_record_dir_lookup (st : ScanResult) (r : FileRecord) (d : Path) :
  dir_lookup (dir_stats (add_record st r)) d =
  if decide (d `prefix_of` rec_dir r)
  then dir_add (rec_ext r) (rec_size r) (dir_lookup (dir_stats st) d)
  else dir_lookup (dir_stats st) d.
Proof.
  rewrite dir_stats_add_record, dir_lookup_chain by apply NoDup_ancestors.
  destruct (decide (d ∈ ancestors (rec_dir r))) as [Hd|Hd],
    (decide (d `prefix_of` rec_dir r)) as [Hp|Hp]; try done.
  - by apply elem_of_ancestors in Hd.
  - by apply elem_of_ancestors in Hp.
Qed.

Lemma aggregate_rollup (recs : list FileRecord) (d : Path) :
  rollup_of (dir_lookup (dir_stats (aggregate recs)) d) (under d recs).
Proof.
  induction recs as [|r recs IH] using rev_ind.
  - apply rollup_of_new.
  - rewrite aggregate_snoc, add_record_dir_lookup, under_snoc.
    case_decide; [by apply rollup_of_add | done].
Qed.

(** A directory has an entry exactly when some counted file lies in it or
    below it. *)
Lemma aggregate_dir_present (recs : list FileRecord) (d : Path) :
  is_Some (dir_stats (aggregate recs) !! d) ↔ under d recs ≠ [].
Proof.
  induction recs as [|r recs IH] using rev_ind.
  - split; [by intros [? ?] | done].
  - rewrite aggregate_snoc, dir_stats_add_record, dir_chain_is_Some,
      elem_of_ancestors, under_snoc, IH.
    case_decide as Hp.
    + split; [intros _ | by left]. by intros []%app_eq_nil.
    + split; [by intros [?|?] | by right].
Qed.

(** C1.  When the scan returns, the size of the root entry is the sum of the
    sizes of all files of the tree that were given a size, and for every
    directory the count, the size and each per-extension entry are those of
    the files in that directory or below it: every file is counted once in its
    own directory and in each ancestor up to the root, and nowhere else.  A
    directory has an entry exactly when such a file exists. *)
Theorem scan_rollup_additive (fs : FileSystem) (r : ScanResult) :
  scan_directory fs = Ok r →
  dir_size (dir_lookup (dir_stats r) Pathlib.dot) = sum_sizes (records fs) ∧
  ∀ d : Path,
    rollup_of (dir_lookup (dir_stats r) d) (under d (records fs)) ∧
    (is_Some (dir_stats r !! d) ↔ under d (records fs) ≠ []).
Proof.
  intros ->%scan_directory_Ok. split.
  - destruct (aggregate_rollup (records fs) Pathlib.dot) as (_ & Hs & _).
    by rewrite Hs, under_root.
  - intros d. split; [apply aggregate_rollup | apply aggregate_dir_present].
Qed.

(** ** Sums over extension keys (C3) *)

Lemma map_sum_empty (g : ExtStat → Z) : map_sum g ∅ = 0.
Proof. unfold map_sum. by rewrite map_fold_empty. Qed.

Lemma map_sum_insert_fresh (g : ExtStat → Z) (m : gmap string ExtStat)
    (k : string) (v : ExtStat) :
  m !! k = None → map_sum g (<[k := v]> m) = g v + map_sum g m.
Proof.
  intros Hk. unfold map_sum.
  rewrite map_fold_insert_L; [done | intros; lia | done].
Qed.

(** Overwriting the entry of a key changes the sum by the difference of the
    two values; an absent key counts for nothing. *)
Lemma map_sum_insert (g : ExtStat → Z) (m : gmap string ExtStat)
    (k : string) (v : ExtStat) :
  map_sum g (<[k := v]> m) = map_sum g m - from_option g 0 (m !! k) + g v.
Proof.
  destruct (m !! k) as [old|] eqn:Hk; simpl.
  - rewrite <- (insert_delete_id m k old) at 2 by done.
    rewrite <- insert_delete_eq.
    rewrite !map_sum_insert_fresh by apply lookup_delete_eq. lia.
  - rewrite map_sum_insert_fresh by done. lia.
Qed.

Lemma sum_ext_counts_bump (ext : string) (size : Z) (m : gmap string ExtStat) :
  sum_ext_counts (ext_bump ext size m) = sum_ext_counts m + 1.
Proof.
  unfold sum_ext_counts, ext_bump, ext_lookup. rewrite map_sum_insert.
  destruct (m !! ext); simpl; lia.
Qed.

Lemma sum_ext_sizes_bump (ext : string) (size : Z) (m : gmap string ExtStat) :
  sum_ext_sizes (ext_bump ext size m) = sum_ext_sizes m + size.
Proof.
  unfold sum_ext_sizes, ext_bump, ext_lookup. rewrite map_sum_insert.
  destruct (m !! ext); simpl; lia.
Qed.

Lemma ext_sums_match_new : ext_sums_match new_dir_stat.
Proof. split; apply map_sum_empty. Qed.

Lemma ext_sums_match_add (ext : string) (size : Z) (d : DirStat) :
  ext_sums_match d → ext_sums_match (dir_add ext size d).
Proof.
  intros [Hc Hs]. split; simpl.
  - rewrite sum_ext_counts_bump. lia.
  - rewrite sum_ext_sizes_bump. lia.
Qed.

Lemma aggregate_dir_sums (recs : list FileRecord) (d : Path) :
  ext_sums_match (dir_lookup (dir_stats (aggregate recs)) d).
Proof.
  induction recs as [|r recs IH] using rev_ind.
  - apply ext_sums_match_new.
  - rewrite aggregate_snoc, add_record_dir_lookup.
    case_decide; [by apply ext_sums_match_add | done].
Qed.

Lemma aggregate_global_sums (recs : list FileRecord) :
  sum_ext_counts (ext_stats (aggregate recs)) = total_files (aggregate recs) ∧
  sum_ext_sizes (ext_stats (aggregate recs)) = total_size (aggregate recs).
Proof.
  induction recs as [|r recs [IHc IHs]] using rev_ind.
  - split; apply map_sum_empty.
  - rewrite aggregate_snoc. split; simpl.
    + rewrite sum_ext_counts_bump. lia.
    + rewrite sum_ext_sizes_bump. lia.
Qed.

(** The totals and the file list are those of the records. *)
Lemma aggregate_totals (recs : list FileRecord) :
  total_files (aggregate recs) = file_count recs ∧
  total_size (aggregate recs) = sum_sizes recs ∧
  all_files (aggregate recs) = (λ r, (rec_path r, rec_size r)) <$> recs.
Proof.
  induction recs as [|r recs (IHc & IHs & IHa)] using rev_ind.
  - done.
  - rewrite aggregate_snoc, file_count_snoc, sum_sizes_snoc, fmap_app.
    simpl. by rewrite IHc, IHs, IHa.
Qed.

(** C3.  In the result of a scan the per-extension counts of the global map
    add up to the total file count and the per-extension sizes to the total
    size, and in every directory entry the per-extension counts and sizes add
    up to the count and the size of that entry. *)
Theorem extension_sums_match_totals (fs : FileSystem) (r : ScanResult) :
  scan_directory fs = Ok r →
  sum_ext_counts (ext_stats r) = total_files r ∧
  sum_ext_sizes (ext_stats r) = total_size r ∧
  ∀ (d : Path) (entry : DirStat),
    dir_stats r !! d = Some entry →
    sum_ext_counts (dir_ext entry) = dir_count entry ∧
    sum_ext_sizes (dir_ext entry) = dir_size entry.
Proof.
  intros ->%scan_directory_Ok.
  destruct (aggregate_global_sums (records fs)) as [Hc Hs].
  split; [done|]. split; [done|].
  intros d entry Hd. pose proof (aggregate_dir_sums (records fs) d) as Hm.
  unfold dir_lookup in Hm. by rewrite Hd in Hm.
Qed.

(** ** Ordered dictionaries of lists *)

Section ordered_dict.

Context {K V : Type} `{EqDecision K}.
Implicit Types (k : K) (v : V) (d : list (K * list V)) (kvs : list (K * V)).

Lemma od_get_append k k' v d :
  od_get k' (od_append k v d) =
  if decide (k = k') then od_get k' d ++ [v] else od_get k' d.
Proof.
  induction d as [|[k0 l0] d IH]; simpl.
  - by destruct (decide (k = k')).
  - destruct (decide (k0 = k)) as [->|Hk0]; simpl.
    + destruct (decide (k = k')); [done|done].
    + destruct (decide (k0 = k')) as [->|Hk0']; [|done].
      by rewrite decide_False by done.
Qed.

Lemma od_append_keys k v d :
  (od_append k v d).*1 = if decide (k ∈ d.*1) then d.*1 else d.*1 ++ [k].
Proof.
  induction d as [|[k0 l0] d IH]; [done|].
  cbn [od_append]. rewrite fmap_cons. cbn [fst].
  destruct (decide (k0 = k)) as [->|Hk0].
  - by rewrite decide_True by left.
  - rewrite fmap_cons, IH. cbn [fst].
    destruct (decide (k ∈ d.*1)) as [Hin|Hin].
    + by rewrite decide_True by (by right).
    + rewrite decide_False; [done|].
      intros [?|?]%elem_of_cons; by subst.
Qed.

Lemma od_append_keys_NoDup k v d : NoDup d.*1 → NoDup (od_append k v d).*1.
Proof.
  intros Hnd. rewrite od_append_keys. case_decide as Hk; [done|].
  apply NoDup_app. split; [done|]. split; [|apply NoDup_singleton].
  intros x Hx ->%list_elem_of_singleton. done.
Qed.

Lemma elem_of_od_append_keys k k' v d :
  k' ∈ (od_append k v d).*1 ↔ k' = k ∨ k' ∈ d.*1.
Proof.
  rewrite od_append_keys. case_decide as Hk.
  - split; [by right | by intros [->|?]].
  - rewrite elem_of_app, list_elem_of_singleton. tauto.
Qed.

(** Appending to a dictionary adds the value to the lists it holds. *)
Lemma od_append_concat k v d :
  concat (od_append k v d).*2 ≡ₚ concat d.*2 ++ [v].
Proof.
  induction d as [|[k0 l0] d IH]; simpl; [done|].
  destruct (decide (k0 = k)) as [->|Hk0]; simpl.
  - rewrite <- !(assoc_L (++)). f_equiv. apply Permutation_app_comm.
  - by rewrite IH, (assoc_L (++)).
Qed.

(** In a key-unique dictionary an entry is its key and what the key reads. *)
Lemma elem_of_od k l d :
  NoDup d.*1 → (k, l) ∈ d ↔ k ∈ d.*1 ∧ od_get k d = l.
Proof.
  induction d as [|[k0 l0] d IH]; simpl; intros Hnd.
  - split; [by intros ?%not_elem_of_nil | by intros [?%not_elem_of_nil _]].
  - apply NoDup_cons in Hnd as [Hk0 Hnd]. rewrite !elem_of_cons, (IH Hnd).
    destruct (decide (k0 = k)) as [->|Hne].
    + split.
      * intros [[= <-]|[Hk _]]; [by split; [left|] | done].
      * intros [_ <-]. by left.
    + split.
      * intros [[= ? ?]|[Hk Hg]]; [by subst | by split; [right|]].
      * intros [[?|Hk] Hg]; [by subst | by right].
Qed.

Lemma od_of_snoc kvs k v : od_of (kvs ++ [(k, v)]) = od_append k v (od_of kvs).
Proof. unfold od_of. by rewrite foldl_app. Qed.

Lemma od_of_keys_NoDup kvs : NoDup (od_of kvs).*1.
Proof.
  induction kvs as [|[k v] kvs IH] using rev_ind; [apply NoDup_nil_2|].
  rewrite od_of_snoc. by apply od_append_keys_NoDup.
Qed.

Lemma elem_of_od_of_keys kvs k : k ∈ (od_of kvs).*1 ↔ k ∈ kvs.*1.
Proof.
  induction kvs as [|[k0 v] kvs IH] using rev_ind; [done|].
  rewrite od_of_snoc, elem_of_od_append_keys, IH, fmap_app, elem_of_app.
  simpl. rewrite list_elem_of_singleton. tauto.
Qed.

(** A key reads the values paired with it, in the order they came. *)
Lemma od_of_get kvs k :
  od_get k (od_of kvs) = (filter (λ kv, kv.1 = k) kvs).*2.
Proof.
  induction kvs as [|[k0 v] kvs IH] using rev_ind; [done|].
  rewrite od_of_snoc, od_get_append, IH, filter_app, fmap_app.
  rewrite filter_cons, filter_nil. simpl.
  destruct (decide (k0 = k)); [done | by rewrite app_nil_r].
Qed.

Lemma elem_of_od_of kvs k l :
  (k, l) ∈ od_of kvs ↔ k ∈ kvs.*1 ∧ l = (filter (λ kv, kv.1 = k) kvs).*2.
Proof.
  rewrite elem_of_od by apply od_of_keys_NoDup.
  rewrite elem_of_od_of_keys, od_of_get. split; intros [? ?]; by split.
Qed.

Lemma od_of_concat kvs : concat (od_of kvs).*2 ≡ₚ kvs.*2.
Proof.
  induction kvs as [|[k v] kvs IH] using rev_ind; [done|].
  by rewrite od_of_snoc, od_append_concat, IH, fmap_app.
Qed.

End ordered_dict.

(** ** The duplicate resolver, loop by loop *)

Lemma elem_of_concat {A : Type} (x : A) (ls : list (list A)) :
  x ∈ concat ls ↔ ∃ l, l ∈ ls ∧ x ∈ l.
Proof.
  induction ls as [|l ls IH]; simpl.
  - split; [by intros ?%not_elem_of_nil | by intros (? & ?%not_elem_of_nil & _)].
  - rewrite elem_of_app, IH. split.
    + intros [Hx|(l' & Hl' & Hx)]; [exists l | exists l']; split; try done.
      * by left.
      * by right.
    + intros (l' & [->|Hl']%elem_of_cons & Hx); [by left | right; by exists l'].
Qed.

Lemma submseteq_NoDup {A : Type} (l k : list A) : l ⊆+ k → NoDup k → NoDup l.
Proof.
  intros [k' Hk]%submseteq_Permutation Hnd. rewrite Hk in Hnd.
  by apply NoDup_app in Hnd as [? _].
Qed.

Lemma hash_bucket_fold (hasher : Path → result string) (paths : list Path)
    (d : list (string * list Path)) (calls : list Path) :
  foldl (λ acc path,
           match hasher path with
           | Ok file_hash => (od_append file_hash path acc.1, acc.2 ++ [path])
           | Raise _ => (acc.1, acc.2 ++ [path])
           end) (d, calls) paths =
  (foldl (λ d kv, od_append kv.1 kv.2 d) d (hash_pairs hasher paths),
   calls ++ paths).
Proof.
  revert d calls. induction paths as [|p paths IH]; intros d calls; simpl.
  - by rewrite app_nil_r.
  - unfold hash_pairs. simpl. destruct (hasher p) as [h|e]; simpl;
      rewrite IH; by rewrite <- (assoc_L (++)).
Qed.

(** The hash buckets of a bucket are the ordered dictionary of its digest
    pairs, and every path of the bucket is passed to the hasher. *)
Lemma hash_bucket_spec (hasher : Path → result string) (paths calls : list Path) :
  hash_bucket hasher paths calls =
  (od_of (hash_pairs hasher paths), calls ++ paths).
Proof. apply hash_bucket_fold. Qed.

Lemma keep_groups_spec (dups : list (list Path))
    (hash_buckets : list (string * list Path)) :
  keep_groups dups hash_buckets =
  dups ++ filter (λ g, (1 < length g)%nat) hash_buckets.*2.
Proof.
  unfold keep_groups. revert dups.
  induction hash_buckets as [|[h l] hb IH]; intros dups; simpl.
  - by rewrite app_nil_r.
  - rewrite IH, filter_cons. case_bool_decide.
    + rewrite decide_True by done. by rewrite <- (assoc_L (++)).
    + by rewrite decide_False by done.
Qed.

Lemma resolve_fold (hasher : Path → result string)
    (cs : list (Z * list Path)) (r : Resolution) :
  foldl (λ r sp,
           let hb := hash_bucket hasher sp.2 (hashed r) in
           {| duplicates := keep_groups (duplicates r) hb.1; hashed := hb.2 |})
        r cs =
  {| duplicates := duplicates r ++ concat (groups_of hasher <$> cs.*2);
     hashed := hashed r ++ concat cs.*2 |}.
Proof.
  revert r. induction cs as [|[size paths] cs IH]; intros r; simpl.
  - rewrite !app_nil_r. by destruct r.
  - rewrite IH, hash_bucket_spec. simpl.
    rewrite keep_groups_spec. by rewrite <- !(assoc_L (++)).
Qed.

(** The result of the resolver: the groups of the candidate buckets, bucket
    after bucket, and the paths of the candidate buckets as the calls. *)
Lemma resolve_spec (hasher : Path → result string)
    (size_index : list (Z * list Path)) :
  resolve hasher size_index =
  {| duplicates := concat (groups_of hasher <$> (candidates size_index).*2);
     hashed := concat (candidates size_index).*2 |}.
Proof. unfold resolve. by rewrite resolve_fold. Qed.

Lemma elem_of_candidates (size_index : list (Z * list Path)) (paths : list Path) :
  paths ∈ (candidates size_index).*2 ↔
  (1 < length paths)%nat ∧ ∃ size, (size, paths) ∈ size_index.
Proof.
  unfold candidates. rewrite list_elem_of_fmap. split.
  - intros ([size l] & -> & [Hlen Hin]%list_elem_of_filter). eauto.
  - intros (Hlen & size & Hin). exists (size, paths).
    split; [done|]. by apply list_elem_of_filter.
Qed.

(** ** Digest groups of one bucket *)

Lemma hash_pairs_cons (hasher : Path → result string) (p : Path)
    (paths : list Path) :
  hash_pairs hasher (p :: paths) =
  match hasher p with
  | Ok h => (h, p) :: hash_pairs hasher paths
  | Raise _ => hash_pairs hasher paths
  end.
Proof. unfold hash_pairs. simpl. by destruct (hasher p). Qed.

Lemma hash_pairs_filter (hasher : Path → result string) (h : string)
    (paths : list Path) :
  (filter (λ kv, kv.1 = h) (hash_pairs hasher paths)).*2 =
  same_digest hasher h paths.
Proof.
  unfold same_digest. induction paths as [|p paths IH]; [done|].
  rewrite hash_pairs_cons, (filter_cons _ p).
  destruct (hasher p) as [h'|e] eqn:Hp.
  - rewrite filter_cons. cbn [fst]. destruct (decide (h' = h)) as [->|Hne].
    + rewrite decide_True by done. rewrite fmap_cons. cbn [snd]. by rewrite IH.
    + by rewrite decide_False by congruence.
  - by rewrite decide_False by done.
Qed.

Lemma hash_pairs_paths (hasher : Path → result string) (paths : list Path) :
  (hash_pairs hasher paths).*2 `sublist_of` paths.
Proof.
  induction paths as [|p paths IH]; [done|].
  rewrite hash_pairs_cons. destruct (hasher p); [rewrite fmap_cons|]; by constructor.
Qed.

Lemma length_same_digest (hasher : Path → result string) (h : string)
    (paths : list Path) :
  (length (same_digest hasher h paths) ≤ length paths)%nat.
Proof. apply length_filter. Qed.

Lemma elem_of_same_digest (hasher : Path → result string) (h : string)
    (paths : list Path) (p : Path) :
  p ∈ same_digest hasher h paths ↔ hasher p = Ok h ∧ p ∈ paths.
Proof. unfold same_digest. by rewrite list_elem_of_filter. Qed.

(** A group of a bucket is the set of its paths with one digest, when there
    are at least two of them. *)
Lemma elem_of_groups_of (hasher : Path → result string) (paths g : list Path) :
  g ∈ groups_of hasher paths ↔
  (1 < length g)%nat ∧ ∃ h, g = same_digest hasher h paths.
Proof.
  unfold groups_of. rewrite list_elem_of_filter, list_elem_of_fmap. split.
  - intros [Hlen ([h l] & -> & Hin)]. split; [done|]. exists h.
    apply elem_of_od_of in Hin as [_ ->]. apply hash_pairs_filter.
  - intros [Hlen [h ->]]. split; [done|].
    exists (h, same_digest hasher h paths). split; [done|].
    apply elem_of_od_of. split; [|by rewrite hash_pairs_filter].
    destruct (same_digest hasher h paths) as [|p l] eqn:Hg; [simpl in Hlen; lia|].
    assert (Hp : p ∈ same_digest hasher h paths) by (rewrite Hg; left).
    apply elem_of_same_digest in Hp as [Hh Hp].
    apply list_elem_of_fmap. exists (h, p). split; [done|].
    unfold hash_pairs. apply list_elem_of_omap. exists p. by rewrite Hh.
Qed.

Lemma groups_of_short (hasher : Path → result string) (paths : list Path) :
  (length paths ≤ 1)%nat → groups_of hasher paths = [].
Proof.
  intros Hlen. destruct (groups_of hasher paths) as [|g gs] eqn:Hg; [done|].
  assert (Hin : g ∈ groups_of hasher paths) by (rewrite Hg; left).
  apply elem_of_groups_of in Hin as [Hg2 [h ->]].
  pose proof (length_same_digest hasher h paths). lia.
Qed.

(** The groups of a bucket use each of its paths at most once. *)
Lemma groups_of_concat (hasher : Path → result string) (paths : list Path) :
  concat (groups_of hasher paths) ⊆+ paths.
Proof.
  transitivity (concat (od_of (hash_pairs hasher paths)).*2).
  - apply sublist_submseteq. unfold groups_of.
    induction (od_of (hash_pairs hasher paths)).*2 as [|l ls IH]; [done|].
    rewrite filter_cons. case_decide; simpl.
    + by apply sublist_app.
    + by apply sublist_inserts_l.
  - rewrite od_of_concat. apply sublist_submseteq, hash_pairs_paths.
Qed.

(** ** Duplicate groups of a size index *)

Lemma duplicates_spec (hasher : Path → result string)
    (size_index : list (Z * list Path)) :
  find_duplicate_candidates hasher size_index =
  concat (groups_of hasher <$> (candidates size_index).*2).
Proof. unfold find_duplicate_candidates. by rewrite resolve_spec. Qed.

Lemma hashed_spec (hasher : Path → result string)
    (size_index : list (Z * list Path)) :
  hashed (resolve hasher size_index) = concat (candidates size_index).*2.
Proof. by rewrite resolve_spec. Qed.

(** A group comes from one bucket with at least two paths and holds the
    paths of that bucket with one digest, of which there are at least two. *)
Lemma elem_of_duplicates (hasher : Path → result string)
    (size_index : list (Z * list Path)) (g : list Path) :
  g ∈ find_duplicate_candidates hasher size_index ↔
  ∃ size paths h,
    (size, paths) ∈ size_index ∧ (1 < length paths)%nat ∧
    g = same_digest hasher h paths ∧ (1 < length g)%nat.
Proof.
  rewrite duplicates_spec, elem_of_concat. split.
  - intros (gs & (paths & -> & Hc)%list_elem_of_fmap & Hg).
    apply elem_of_candidates in Hc as (Hlen & size & Hin).
    apply elem_of_groups_of in Hg as (Hg & h & ->).
    by exists size, paths, h.
  - intros (size & paths & h & Hin & Hlen & -> & Hg).
    exists (groups_of hasher paths). split.
    + apply list_elem_of_fmap. exists paths. split; [done|].
      apply elem_of_candidates. eauto.
    + apply elem_of_groups_of. eauto.
Qed.

Lemma candidates_cons (sp : Z * list Path) (size_index : list (Z * list Path)) :
  candidates (sp :: size_index) =
  if decide (1 < length sp.2)%nat
  then sp :: candidates size_index else candidates size_index.
Proof. unfold candidates. by rewrite filter_cons. Qed.

Lemma candidates_app (si si' : list (Z * list Path)) :
  candidates (si ++ si') = candidates si ++ candidates si'.
Proof. unfold candidates. by rewrite filter_app. Qed.

(** The groups use each path of the index at most as often as the index
    holds it. *)
Lemma duplicates_concat (hasher : Path → result string)
    (size_index : list (Z * list Path)) :
  concat (find_duplicate_candidates hasher size_index) ⊆+ concat size_index.*2.
Proof.
  rewrite duplicates_spec.
  induction size_index as [|[size paths] si IH]; [done|].
  rewrite candidates_cons. cbn [snd]. rewrite fmap_cons. cbn [snd concat].
  case_decide.
  - rewrite !fmap_cons. cbn [snd concat]. rewrite concat_app.
    apply submseteq_app; [apply groups_of_concat | done].
  - by apply submseteq_inserts_l.
Qed.

(** In a list of lists whose concatenation has no repetition, an element
    determines the position of the list that holds it. *)
Lemma NoDup_concat_unique {A : Type} (ls : list (list A)) (i j : nat)
    (l l' : list A) (x : A) :
  NoDup (concat ls) →
  ls !! i = Some l → ls !! j = Some l' → x ∈ l → x ∈ l' → i = j.
Proof.
  revert i j. induction ls as [|l0 ls IH]; intros i j Hnd Hi Hj Hx Hx'.
  - done.
  - simpl in Hnd. apply NoDup_app in Hnd as (_ & Hdisj & Hnd).
    assert (Hrest : ∀ n k, ls !! n = Some k → x ∈ k → x ∈ concat ls).
    { intros n k Hn Hk. apply elem_of_concat. exists k. split; [|done].
      by eapply list_elem_of_lookup_2. }
    destruct i as [|i], j as [|j]; simpl in Hi, Hj.
    + done.
    + injection Hi as ->. exfalso. eapply Hdisj; eauto.
    + injection Hj as ->. exfalso. eapply Hdisj; eauto.
    + f_equal. by apply IH.
Qed.

(** C10.  When no path occurs twice in the size index, no path occurs twice
    in the emitted groups: two groups at different positions share no path (and
    a group holds no path twice), and the members of one group all lie in one
    bucket of the index, so have one size, and all have one digest. *)
Theorem duplicate_groups_disjoint (hasher : Path → result string)
    (size_index : list (Z * list Path)) :
  NoDup (concat size_index.*2) →
  NoDup (concat (find_duplicate_candidates hasher size_index)) ∧
  (∀ (i j : nat) (g g' : list Path) (p : Path),
     find_duplicate_candidates hasher size_index !! i = Some g →
     find_duplicate_candidates hasher size_index !! j = Some g' →
     p ∈ g → p ∈ g' → i = j) ∧
  (∀ g : list Path,
     g ∈ find_duplicate_candidates hasher size_index →
     ∃ (size : Z) (paths : list Path) (h : string),
       (size, paths) ∈ size_index ∧
       ∀ p : Path, p ∈ g → p ∈ paths ∧ hasher p = Ok h).
Proof.
  intros Hnd.
  assert (Hg : NoDup (concat (find_duplicate_candidates hasher size_index))).
  { eapply submseteq_NoDup; [apply duplicates_concat | done]. }
  split; [done|]. split.
  - intros i j g g' p. by apply NoDup_concat_unique.
  - intros g (size & paths & h & Hin & _ & -> & _)%elem_of_duplicates.
    exists size, paths, h. split; [done|].
    intros p [Hh Hp]%elem_of_same_digest. done.
Qed.

(** C6.  A path whose buckets hold nothing but that path is never passed to
    the hasher and is a member of no group. *)
Theorem sole_occupant_not_hashed (hasher : Path → result string)
    (size_index : list (Z * list Path)) (p : Path) :
  (∀ (size : Z) (paths : list Path),
     (size, paths) ∈ size_index → p ∈ paths → paths = [p]) →
  (p ∉ hashed (resolve hasher size_index)) ∧
  (∀ g : list Path, g ∈ find_duplicate_candidates hasher size_index → p ∉ g).
Proof.
  intros Hsole. split.
  - rewrite hashed_spec, elem_of_concat.
    intros (paths & (Hlen & size & Hin)%elem_of_candidates & Hp).
    rewrite (Hsole size paths Hin Hp) in Hlen. simpl in Hlen. lia.
  - intros g (size & paths & h & Hin & Hlen & -> & _)%elem_of_duplicates.
    intros [_ Hp]%elem_of_same_digest.
    rewrite (Hsole size paths Hin Hp) in Hlen. simpl in Hlen. lia.
Qed.

(** C7.  When the hasher raises on one path of a bucket, whatever the
    exception, the function still returns, its groups are those of the index
    without that path, and every other path of the bucket is still passed to
    the hasher. *)
Theorem hash_failure_drops_path (hasher : Path → result string)
    (pre post : list (Z * list Path)) (size : Z) (l1 l2 : list Path)
    (p : Path) (e : OSError) :
  hasher p = Raise e →
  find_duplicate_candidates hasher (pre ++ (size, l1 ++ p :: l2) :: post) =
  find_duplicate_candidates hasher (pre ++ (size, l1 ++ l2) :: post) ∧
  (∀ q : Path, q ∈ l1 ++ l2 →
     q ∈ hashed (resolve hasher (pre ++ (size, l1 ++ p :: l2) :: post))).
Proof.
  intros Hp.
  assert (Hpairs : hash_pairs hasher (l1 ++ p :: l2) = hash_pairs hasher (l1 ++ l2)).
  { unfold hash_pairs. rewrite !omap_app. f_equal.
    fold (hash_pairs hasher (p :: l2)). fold (hash_pairs hasher l2).
    by rewrite hash_pairs_cons, Hp. }
  assert (Hgroups : groups_of hasher (l1 ++ p :: l2) = groups_of hasher (l1 ++ l2)).
  { unfold groups_of. by rewrite Hpairs. }
  split.
  - rewrite !duplicates_spec, !candidates_app, !candidates_cons. cbn [snd].
    rewrite !fmap_app, !concat_app. f_equal.
    destruct (decide (1 < length (l1 ++ p :: l2))%nat) as [Hlong|Hshort],
      (decide (1 < length (l1 ++ l2))%nat) as [Hlong'|Hshort'];
      rewrite ?fmap_cons; cbn [snd concat].
    + by rewrite Hgroups.
    + rewrite Hgroups, groups_of_short by lia. done.
    + rewrite length_app in Hlong', Hshort. simpl in Hshort. lia.
    + done.
  - intros q Hq. rewrite hashed_spec, elem_of_concat.
    exists (l1 ++ p :: l2). split.
    + apply elem_of_candidates. split.
      * destruct (l1 ++ l2) as [|x l] eqn:Hl; [by apply not_elem_of_nil in Hq|].
        apply (f_equal length) in Hl. rewrite length_app in Hl |- *.
        simpl in Hl |- *. lia.
      * exists size. apply elem_of_app. right. left.
    + apply elem_of_app in Hq as [Hq|Hq]; apply elem_of_app; [by left|].
      right. by right.
Qed.

(** ** Entries that cannot be sized (C8) and the empty tree (C4) *)

Lemma for_each_skip {A S : Type} (body : S → A → result S) (l1 l2 : list A)
    (x : A) (st : S) :
  (∀ s, body s x = Ok s) →
  for_each body (l1 ++ x :: l2) st = for_each body (l1 ++ l2) st.
Proof.
  intros Hx. rewrite !for_each_app.
  destruct (for_each body l1 st) as [st'|e]; [|done]. simpl. by rewrite Hx.
Qed.

Lemma entries_app (w w' : list (Path * list string)) :
  entries (w ++ w') = entries w ++ entries w'.
Proof. unfold entries. by rewrite bind_app. Qed.

Lemma entries_cons (d : Path) (names : list string) (w : list (Path * list string)) :
  entries ((d, names) :: w) = ((λ name, (d, name)) <$> names) ++ entries w.
Proof. unfold entries. by rewrite bind_cons. Qed.

(** C8.  Take an entry of the walk whose [stat] raises [FileNotFoundError]
    or [PermissionError].  The scan behaves exactly as on the walk without
    that entry: when it returns, the file list, the global extension map, the
    size index, the directory map and the two totals are those of the other
    files.  The path of the entry is not among the counted files, and unless
    some [stat] raises an exception of another class the scan returns, with
    the totals and the file list of the files that were given a size. *)
Theorem stat_failure_skips_entry (fs : FileSystem)
    (pre post : list (Path * list string)) (d : Path)
    (names1 names2 : list string) (name : string) :
  walk fs = pre ++ (d, names1 ++ name :: names2) :: post →
  skipped fs (Pathlib.joinpath d name) →
  scan_directory fs =
    scan_directory (with_walk fs (pre ++ (d, names1 ++ names2) :: post)) ∧
  (Pathlib.joinpath d name ∉ rec_path <$> records fs) ∧
  ((∀ path, path ∈ listed fs → stat_size fs path ≠ Raise OtherOSError) →
   ∃ r : ScanResult,
     scan_directory fs = Ok r ∧
     total_files r = file_count (records fs) ∧
     total_size r = sum_sizes (records fs) ∧
     all_files r = (λ rec, (rec_path rec, rec_size rec)) <$> records fs).
Proof.
  intros Hw Hskip. split; [|split].
  - unfold scan_directory. rewrite !scan_loop_entries, Hw.
    cbn [walk with_walk].
    rewrite !entries_app, !entries_cons, !fmap_app, fmap_cons.
    rewrite <- !(assoc_L (++)), !(assoc_L (++) (entries pre)).
    rewrite <- app_comm_cons.
    rewrite (for_each_skip _ _ _ (d, name)); [done|].
    intros s. unfold visit_file. cbn [fst snd].
    by destruct Hskip as [-> | ->].
  - intros (rec & Hpath & [_ Hstat]%elem_of_records)%list_elem_of_fmap.
    rewrite <- Hpath in Hstat. destruct Hskip as [Hs|Hs]; congruence.
  - intros Hok. exists (aggregate (records fs)).
    split; [by apply scan_directory_total|]. apply aggregate_totals.
Qed.

Lemma entries_no_files (w : list (Path * list string)) :
  (∀ e, e ∈ w → e.2 = []) → entries w = [].
Proof.
  induction w as [|[d names] w IH]; intros Hw; [done|].
  rewrite entries_cons, IH.
  - pose proof (Hw (d, names) ltac:(left)) as Hd. simpl in Hd. by subst.
  - intros e He. apply Hw. by right.
Qed.

(** C4, as the code has it.  On a tree without files the scan returns total
    count 0 and total size 0, the resolver finds no group, and the directory
    map is empty: it has no entry for the root, and reading the root through
    the auto-creating map gives the default entry, whose count is 0. *)
Theorem empty_tree_scan (fs : FileSystem) :
  (∀ e, e ∈ walk fs → e.2 = []) →
  ∃ r : ScanResult,
    scan_directory fs = Ok r ∧
    total_files r = 0 ∧
    total_size r = 0 ∧
    (∀ hasher, find_duplicate_candidates hasher (size_index r) = []) ∧
    dir_stats r = ∅ ∧
    dir_stats r !! Pathlib.dot = None ∧
    dir_count (dir_lookup (dir_stats r) Pathlib.dot) = 0.
Proof.
  intros Hw. exists scan_init. repeat split.
  unfold scan_directory. rewrite scan_loop_entries, entries_no_files; done.
Qed.

(** ** Extension keys (C5) *)

Lemma rfind_no_dot (s : string) : no_dot s → Pathlib.rfind "." s = -1.
Proof.
  induction s as [|a s IH]; simpl; [done|]. intros [Ha Hs]. rewrite IH by done.
  simpl. by apply Ascii.eqb_neq in Ha as ->.
Qed.

Lemma append_cons (a : ascii) (s t : string) :
  String a s +:+ t = String a (s +:+ t).
Proof. done. Qed.

Lemma append_empty (t : string) : EmptyString +:+ t = t.
Proof. done. Qed.

(** The last dot of [stem.rest], when [rest] has no dot, is at [len(stem)]. *)
Lemma rfind_last_dot (stem rest : string) :
  no_dot rest →
  Pathlib.rfind "." (stem +:+ String "." rest) = Z.of_nat (String.length stem).
Proof.
  intros Hrest. induction stem as [|a stem IH].
  - rewrite append_empty. simpl. by rewrite rfind_no_dot.
  - rewrite append_cons. cbn [Pathlib.rfind String.length]. rewrite IH.
    rewrite (proj2 (Z.leb_le _ _)) by lia. lia.
Qed.

Lemma slice_from_app (stem rest : string) :
  Pathlib.slice_from (String.length stem) (stem +:+ rest) = rest.
Proof.
  induction stem as [|a stem IH].
  - rewrite append_empty. by destruct rest.
  - by rewrite append_cons.
Qed.

Lemma string_length_app (s t : string) :
  String.length (s +:+ t) = (String.length s + String.length t)%nat.
Proof.
  induction s as [|a s IH]; [done|].
  rewrite append_cons. simpl. by rewrite IH.
Qed.

(** Every name either has no dot or splits at its last dot. *)
Lemma name_split (s : string) :
  no_dot s ∨ ∃ stem rest, s = stem +:+ String "." rest ∧ no_dot rest.
Proof.
  induction s as [|a s [IH | (stem & rest & -> & Hrest)]].
  - by left.
  - destruct (decide (a = "."%char)) as [->|Ha].
    + right. by exists EmptyString, s.
    + by left.
  - right. by exists (String a stem), rest.
Qed.

Lemma name_joinpath (dir : Path) (name : string) :
  Pathlib.name (Pathlib.joinpath dir name) = name.
Proof. unfold Pathlib.name, Pathlib.joinpath. apply List.last_last. Qed.

(** [suffix] by the shape of the name. *)
Lemma suffix_no_dot (path : Path) :
  no_dot (Pathlib.name path) → Pathlib.suffix path = EmptyString.
Proof. intros Hn. unfold Pathlib.suffix. by rewrite rfind_no_dot. Qed.

Lemma suffix_last_dot (path : Path) (stem rest : string) :
  Pathlib.name path = stem +:+ String "." rest → no_dot rest →
  Pathlib.suffix path =
  if decide (stem = EmptyString ∨ rest = EmptyString)
  then EmptyString else String "." rest.
Proof.
  intros Hname Hrest. unfold Pathlib.suffix.
  rewrite Hname, rfind_last_dot, string_length_app by done.
  rewrite Nat2Z.id, slice_from_app. cbn [String.length].
  destruct stem as [|a stem], rest as [|b rest]; cbn [String.length].
  - done.
  - done.
  - rewrite decide_True by (by right).
    rewrite (proj2 (Z.ltb_ge (Z.of_nat (S (String.length stem))) _)) by lia.
    by rewrite andb_false_r.
  - rewrite decide_False by (by intros [?|?]).
    by rewrite !(proj2 (Z.ltb_lt _ _)) by lia.
Qed.

Lemma real_extension_not_sentinel (ext : string) :
  real_extension ext → ext ≠ NO_EXT.
Proof. by intros (a & rest & ->). Qed.

Section extension_keys.

Context `{!StrLowerLaws}.

Lemma str_lower_empty : str_lower EmptyString = EmptyString.
Proof. by rewrite str_lower_ascii. Qed.

(** C5, as the code has it, for the [pathlib] of CPython up to 3.13.  The
    key of a file is the final suffix of its name lowered by [str.lower] when
    [pathlib] finds one, that is when the last dot has characters on both
    sides; otherwise it is the sentinel.  So a name without a dot, a name whose
    only dot leads it and a name that ends in a bare dot all get the one
    sentinel.  Every key is the sentinel or a dot followed by at least one
    character; the sentinel is neither of that form nor empty, and no key is
    the empty string. *)
Theorem extension_key_final_suffix :
  (∀ (dir : Path) (name : string),
     no_dot name → extension_key (Pathlib.joinpath dir name) = NO_EXT) ∧
  (∀ (dir : Path) (stem rest : string),
     no_dot rest →
     extension_key (Pathlib.joinpath dir (stem +:+ String "." rest)) =
     if decide (stem = EmptyString ∨ rest = EmptyString)
     then NO_EXT else String "." (str_lower rest)) ∧
  (∀ path : Path,
     Pathlib.suffix path ≠ EmptyString →
     extension_key path = str_lower (Pathlib.suffix path)) ∧
  (∀ path : Path,
     extension_key path = NO_EXT ∨ real_extension (extension_key path)) ∧
  (∀ ext : string, real_extension ext → ext ≠ NO_EXT) ∧
  NO_EXT ≠ EmptyString ∧
  (∀ path : Path, extension_key path ≠ EmptyString).
Proof.
  assert (Hshape : ∀ (path : Path) (stem rest : string),
    Pathlib.name path = stem +:+ String "." rest → no_dot rest →
    extension_key path =
    if decide (stem = EmptyString ∨ rest = EmptyString)
    then NO_EXT else String "." (str_lower rest)).
  { intros path stem rest Hname Hrest. unfold extension_key.
    rewrite (suffix_last_dot path stem rest) by done. case_decide.
    - by rewrite str_lower_empty.
    - by rewrite str_lower_dot. }
  assert (Hnone : ∀ path, no_dot (Pathlib.name path) → extension_key path = NO_EXT).
  { intros path Hn. unfold extension_key.
    by rewrite suffix_no_dot, str_lower_empty. }
  assert (Hcases : ∀ path,
    extension_key path = NO_EXT ∨ real_extension (extension_key path)).
  { intros path. destruct (name_split (Pathlib.name path))
      as [Hn | (stem & rest & Hname & Hrest)].
    - left. by apply Hnone.
    - rewrite (Hshape path stem rest) by done. case_decide as Hd; [by left|].
      right. destruct (str_lower rest) as [|b low] eqn:Hlow.
      + apply str_lower_nonempty in Hlow. exfalso. apply Hd. by right.
      + by exists b, low. }
  split; [|split; [|split; [|split; [|split; [|split]]]]].
  - intros dir name Hn. apply Hnone. by rewrite name_joinpath.
  - intros dir stem rest Hrest. apply Hshape; [|done]. by rewrite name_joinpath.
  - intros path Hsuffix. unfold extension_key.
    destruct (str_lower (Pathlib.suffix path)) as [|a low] eqn:Hlow; [|done].
    by apply str_lower_nonempty in Hlow.
  - done.
  - apply real_extension_not_sentinel.
  - done.
  - intros path. destruct (Hcases path) as [-> | (a & rest & ->)]; done.
Qed.

End extension_keys.

(** ** The hasher *)

(** Feeding the file chunk by chunk feeds the whole file. *)
Lemma read_loop_whole (chunk_size : nat) (f h : list byte) :
  (0 < chunk_size)%nat → read_loop chunk_size f h = h ++ f.
Proof.
  intros Hpos. funelim (read_loop chunk_size f h).
  - destruct f as [|b f]; [by rewrite app_nil_r|].
    destruct chunk_size; [lia | done].
  - match goal with IH : _ → read_loop _ _ _ = _ |- _ => rewrite IH by done end.
    rewrite <- (assoc_L (++)), <- E. by rewrite take_drop.
Qed.

Lemma default_chunk_size_pos : (0 < DEFAULT_CHUNK_SIZE)%nat.
Proof. unfold DEFAULT_CHUNK_SIZE. lia. Qed.

(** The digest of a readable file is the digest of its content; an
    unreadable file raises what the read raised. *)
Lemma hash_file_content (md5 : list byte → string) (fs : FileSystem) (path : Path) :
  hash_file md5 fs path =
  match read_bytes fs path with
  | Ok content => Ok (md5 content)
  | Raise e => Raise e
  end.
Proof.
  unfold hash_file, hash_file_chunked. destruct (read_bytes fs path); [|done].
  by rewrite read_loop_whole by apply default_chunk_size_pos.
Qed.

(** ** The size index of a scan *)

Lemma size_index_aggregate (recs : list FileRecord) :
  size_index (aggregate recs) = od_of ((λ r, (rec_size r, rec_path r)) <$> recs).
Proof.
  induction recs as [|r recs IH] using rev_ind; [done|].
  rewrite aggregate_snoc, fmap_app. simpl. by rewrite od_of_snoc, IH.
Qed.

Lemma size_index_paths (recs : list FileRecord) :
  concat (size_index (aggregate recs)).*2 ≡ₚ rec_path <$> recs.
Proof.
  rewrite size_index_aggregate, od_of_concat, <- list_fmap_compose.
  done.
Qed.

(** A bucket of the index holds the paths of the records of one size. *)
Lemma elem_of_size_index (recs : list FileRecord) (size : Z) (paths : list Path) :
  (size, paths) ∈ size_index (aggregate recs) →
  ∀ p, p ∈ paths ↔ ∃ r, r ∈ recs ∧ rec_path r = p ∧ rec_size r = size.
Proof.
  rewrite size_index_aggregate. intros [_ ->]%elem_of_od_of p.
  rewrite list_elem_of_fmap. split.
  - intros ([s q] & -> & [Hs (r & [= -> ->] & Hr)%list_elem_of_fmap]%list_elem_of_filter).
    by exists r.
  - intros (r & Hr & <- & <-). exists (rec_size r, rec_path r). split; [done|].
    apply list_elem_of_filter. split; [done|].
    apply list_elem_of_fmap. by exists r.
Qed.

Lemma size_index_bucket (recs : list FileRecord) (r : FileRecord) :
  r ∈ recs → ∃ paths, (rec_size r, paths) ∈ size_index (aggregate recs).
Proof.
  intros Hr. rewrite size_index_aggregate.
  exists (filter (λ kv, kv.1 = rec_size r) ((λ r, (rec_size r, rec_path r)) <$> recs)).*2.
  apply elem_of_od_of. split; [|done].
  rewrite <- list_fmap_compose. apply list_elem_of_fmap. by exists r.
Qed.

(** A listed path with a size has a record. *)
Lemma listed_record (fs : FileSystem) (p : Path) (size : Z) :
  p ∈ listed fs → stat_size fs p = Ok size →
  ∃ r, r ∈ records fs ∧ rec_path r = p ∧ rec_size r = size.
Proof.
  intros ([d n] & -> & He)%list_elem_of_fmap Hs.
  exists {| rec_dir := d; rec_name := n; rec_size := size |}.
  split; [|done]. by apply elem_of_records.
Qed.

Lemma records_paths (fs : FileSystem) :
  rec_path <$> records fs `sublist_of` listed fs.
Proof.
  unfold records, listed. induction (entries (walk fs)) as [|[d n] es IH]; [done|].
  simpl. unfold stat_record at 1. simpl.
  destruct (stat_size fs (Pathlib.joinpath d n)); simpl; by constructor.
Qed.

(** When the walk lists no path twice, the index holds no path twice. *)
Lemma size_index_NoDup (fs : FileSystem) :
  NoDup (listed fs) → NoDup (concat (size_index (aggregate (records fs))).*2).
Proof.
  intros Hnd. rewrite size_index_paths.
  eapply sublist_NoDup; [done | apply records_paths].
Qed.

Lemma two_members_length {A : Type} (l : list A) (x y : A) :
  x ∈ l → y ∈ l → x ≠ y → (1 < length l)%nat.
Proof.
  destruct l as [|a [|b l]]; simpl; intros Hx Hy Hne; [|exfalso|lia].
  - by apply not_elem_of_nil in Hx.
  - apply list_elem_of_singleton in Hx, Hy. congruence.
Qed.

(** ** Scan, then resolve (C2, C9) *)

(** C2.  Scan a tree whose walk lists no path twice and resolve its size
    index.  Every emitted group has at least two members.  Two different files
    with the same size and the same content are together in one group, and no
    group at another position holds either of them.  Two files whose contents
    have different digests are never together in a group. *)
Theorem duplicates_group_equal_content (md5 : list byte → string)
    (fs : FileSystem) (groups : list (list Path)) :
  scan_and_resolve md5 fs = Ok groups →
  NoDup (listed fs) →
  (∀ g : list Path, g ∈ groups → (2 ≤ length g)%nat) ∧
  (∀ (p q : Path) (size : Z) (content : list byte),
     p ∈ listed fs → q ∈ listed fs → p ≠ q →
     stat_size fs p = Ok size → stat_size fs q = Ok size →
     read_bytes fs p = Ok content → read_bytes fs q = Ok content →
     ∃ (i : nat) (g : list Path),
       groups !! i = Some g ∧ p ∈ g ∧ q ∈ g ∧
       ∀ (j : nat) (g' : list Path),
         groups !! j = Some g' → p ∈ g' ∨ q ∈ g' → j = i) ∧
  (∀ (p q : Path) (cp cq : list byte),
     read_bytes fs p = Ok cp → read_bytes fs q = Ok cq → md5 cp ≠ md5 cq →
     ∀ g : list Path, g ∈ groups → ¬ (p ∈ g ∧ q ∈ g)).
Proof.
  unfold scan_and_resolve.
  destruct (scan_directory fs) as [data|e] eqn:Hscan; [|done].
  apply scan_directory_Ok in Hscan as ->. intros [= <-] Hnd.
  set (si := size_index (aggregate (records fs))).
  set (hasher := hash_file md5 fs).
  split; [|split].
  - intros g (_ & _ & _ & _ & _ & _ & Hg)%elem_of_duplicates. lia.
  - intros p q size content Hp Hq Hne Hsp Hsq Hcp Hcq.
    destruct (listed_record fs p size Hp Hsp) as (rp & Hrp & Hpath_p & Hsize_p).
    destruct (listed_record fs q size Hq Hsq) as (rq & Hrq & Hpath_q & Hsize_q).
    destruct (size_index_bucket (records fs) rp Hrp) as [paths Hbucket].
    rewrite Hsize_p in Hbucket. fold si in Hbucket.
    pose proof (elem_of_size_index (records fs) size paths Hbucket) as Hmem.
    assert (Hpin : p ∈ paths) by (apply Hmem; by exists rp).
    assert (Hqin : q ∈ paths) by (apply Hmem; by exists rq).
    assert (Hhp : hasher p = Ok (md5 content)).
    { unfold hasher. by rewrite hash_file_content, Hcp. }
    assert (Hhq : hasher q = Ok (md5 content)).
    { unfold hasher. by rewrite hash_file_content, Hcq. }
    set (g := same_digest hasher (md5 content) paths).
    assert (Hpg : p ∈ g) by (by apply elem_of_same_digest).
    assert (Hqg : q ∈ g) by (by apply elem_of_same_digest).
    assert (Hg : g ∈ find_duplicate_candidates hasher si).
    { apply elem_of_duplicates. exists size, paths, (md5 content).
      split; [done|]. split; [by apply (two_members_length paths p q)|].
      split; [done|]. by apply (two_members_length g p q). }
    apply list_elem_of_lookup_1 in Hg as [i Hi]. exists i, g.
    split; [done|]. split; [done|]. split; [done|].
    assert (Hgs : NoDup (concat (find_duplicate_candidates hasher si))).
    { eapply submseteq_NoDup; [apply duplicates_concat|].
      by apply size_index_NoDup. }
    intros j g' Hj [Hin|Hin];
      eapply (NoDup_concat_unique _ j i g' g); eauto.
  - intros p q cp cq Hcp Hcq Hdiff g
      (_ & paths & h & _ & _ & -> & _)%elem_of_duplicates
      [[Hp _]%elem_of_same_digest [Hq _]%elem_of_same_digest].
    unfold hasher in Hp, Hq. rewrite hash_file_content in Hp, Hq.
    rewrite Hcp in Hp. rewrite Hcq in Hq. congruence.
Qed.

Lemma hash_pairs_ext (hasher hasher' : Path → result string) (paths : list Path) :
  (∀ p, p ∈ paths → hasher p = hasher' p) →
  hash_pairs hasher paths = hash_pairs hasher' paths.
Proof.
  induction paths as [|p paths IH]; intros Hagree; [done|].
  rewrite !hash_pairs_cons, Hagree by left. rewrite IH; [done|].
  intros q Hq. apply Hagree. by right.
Qed.

(** The resolver depends on the hasher only through the digests of the
    paths in the index. *)
Lemma resolve_ext (hasher hasher' : Path → result string)
    (size_index : list (Z * list Path)) :
  (∀ p, p ∈ concat size_index.*2 → hasher p = hasher' p) →
  resolve hasher size_index = resolve hasher' size_index.
Proof.
  intros Hagree. rewrite !resolve_spec. f_equal. f_equal.
  apply list_fmap_ext. intros i paths Hi.
  apply list_elem_of_lookup_2, elem_of_candidates in Hi as (_ & size & Hin).
  unfold groups_of. rewrite (hash_pairs_ext hasher hasher'); [done|].
  intros p Hp. apply Hagree. apply elem_of_concat. exists paths.
  split; [|done]. apply list_elem_of_fmap. by exists (size, paths).
Qed.

Lemma scan_directory_ext (fs fs' : FileSystem) :
  walk fs = walk fs' →
  (∀ p, p ∈ listed fs → stat_size fs p = stat_size fs' p) →
  scan_directory fs = scan_directory fs'.
Proof.
  intros Hw Hstat. unfold scan_directory. rewrite !scan_loop_entries, <- Hw.
  apply for_each_ext. intros s [d n] He. unfold visit_file. simpl.
  rewrite Hstat; [done|]. unfold listed. apply list_elem_of_fmap.
  by exists (d, n).
Qed.

(** C9.  Two runs that see the same enumeration, the same sizes and the
    same contents for the enumerated files give the same outcome: the same
    sequence of groups, members in the same order, or the same exception. *)
Theorem resolution_deterministic (md5 : list byte → string) (fs fs' : FileSystem) :
  walk fs = walk fs' →
  (∀ p, p ∈ listed fs → stat_size fs p = stat_size fs' p) →
  (∀ p, p ∈ listed fs → read_bytes fs p = read_bytes fs' p) →
  scan_and_resolve md5 fs = scan_and_resolve md5 fs'.
Proof.
  intros Hw Hstat Hread. unfold scan_and_resolve.
  rewrite <- (scan_directory_ext fs fs') by done.
  destruct (scan_directory fs) as [data|e] eqn:Hscan; [|done].
  apply scan_directory_Ok in Hscan as ->. f_equal.
  unfold find_duplicate_candidates. f_equal. apply resolve_ext.
  intros p Hp. rewrite size_index_paths in Hp.
  rewrite !hash_file_content, Hread; [done|].
  eapply elem_of_sublist; [done | apply records_paths].
Qed.

(** * Further properties of the code *)

(** ** The result of a scan, component by component *)

Lemma records_files (fs : FileSystem) :
  (λ rec, (rec_path rec, rec_size rec)) <$> records fs =
  omap (stat_file fs) (listed fs).
Proof.
  unfold records, listed. induction (entries (walk fs)) as [|[d n] es IH]; [done|].
  rewrite fmap_cons. cbn [omap list_omap fst snd].
  unfold stat_record at 1, stat_file at 1. cbn [fst snd].
  destruct (stat_size fs (Pathlib.joinpath d n)) as [size|e].
  - rewrite fmap_cons. f_equal. apply IH.
  - apply IH.
Qed.

Lemma sum_sizes_files (recs : list FileRecord) :
  sum_sizes recs = sum_file_sizes ((λ rec, (rec_path rec, rec_size rec)) <$> recs).
Proof.
  unfold sum_sizes, sum_file_sizes.
  induction recs as [|r recs IH]; [done|]. simpl. by rewrite IH.
Qed.

(** X1.  When the scan returns, [all_files] holds, in walk order, exactly the
    listed paths whose [stat] succeeded, each with the size it returned;
    [total_files] is the length of that list and [total_size] the sum of its
    sizes. *)
Theorem scan_file_list (fs : FileSystem) (r : ScanResult) :
  scan_directory fs = Ok r →
  all_files r = omap (stat_file fs) (listed fs) ∧
  total_files r = Z.of_nat (length (all_files r)) ∧
  total_size r = sum_file_sizes (all_files r).
Proof.
  intros ->%scan_directory_Ok.
  destruct (aggregate_totals (records fs)) as (Hc & Hs & Ha).
  rewrite Ha, Hc, Hs. split; [apply records_files|]. split.
  - unfold file_count. by rewrite length_fmap.
  - apply sum_sizes_files.
Qed.

Lemma aggregate_root_entry (recs : list FileRecord) :
  dir_lookup (dir_stats (aggregate recs)) Pathlib.dot =
  {| dir_count := total_files (aggregate recs);
     dir_size := total_size (aggregate recs);
     dir_ext := ext_stats (aggregate recs) |}.
Proof.
  induction recs as [|r recs IH] using rev_ind; [done|].
  rewrite aggregate_snoc, add_record_dir_lookup.
  rewrite decide_True by (by exists (rec_dir r)). by rewrite IH.
Qed.

(** X2.  When the scan returns, the entry the directory map gives for the
    root is the global view: its count is [total_files], its size is
    [total_size] and its per-extension map is [ext_stats] itself. *)
Theorem root_entry_is_global (fs : FileSystem) (r : ScanResult) :
  scan_directory fs = Ok r →
  dir_lookup (dir_stats r) Pathlib.dot =
  {| dir_count := total_files r; dir_size := total_size r; dir_ext := ext_stats r |}.
Proof. intros ->%scan_directory_Ok. apply aggregate_root_entry. Qed.

Lemma ext_bump_is_Some (ext ext' : string) (size : Z) (m : gmap string ExtStat) :
  is_Some (ext_bump ext size m !! ext') ↔ ext = ext' ∨ is_Some (m !! ext').
Proof.
  unfold ext_bump. rewrite lookup_insert. case_decide; simpl.
  - split; [by left | by eauto].
  - split; [by right | by intros [?|?]].
Qed.

Lemma aggregate_ext_present (recs : list FileRecord) (ext : string) :
  is_Some (ext_stats (aggregate recs) !! ext) ↔ with_ext ext recs ≠ [].
Proof.
  induction recs as [|r recs IH] using rev_ind.
  - split; [by intros [? ?] | done].
  - rewrite aggregate_snoc, with_ext_snoc. cbn [add_record record_file ext_stats].
    rewrite ext_bump_is_Some, IH. fold (rec_path r). fold (rec_ext r).
    case_decide as Hext.
    + split; [intros _ | by left]. by intros []%app_eq_nil.
    + split; [by intros [?|?] | by right].
Qed.

(** X3.  When the scan returns, the global entry of an extension key counts
    the sized files with that key and sums their sizes, and a key has an entry
    exactly when some sized file has it. *)
Theorem global_extension_stats (fs : FileSystem) (r : ScanResult) :
  scan_directory fs = Ok r →
  ∀ ext : string,
    ext_lookup (ext_stats r) ext =
      {| ext_count := file_count (with_ext ext (records fs));
         ext_size := sum_sizes (with_ext ext (records fs)) |} ∧
    (is_Some (ext_stats r !! ext) ↔ with_ext ext (records fs) ≠ []).
Proof.
  intros ->%scan_directory_Ok ext. split; [|apply aggregate_ext_present].
  destruct (aggregate_rollup (records fs) Pathlib.dot) as (_ & _ & Hext).
  rewrite aggregate_root_entry, under_root in Hext. apply Hext.
Qed.

Lemma size_pairs_filter (recs : list FileRecord) (size : Z) :
  (filter (λ kv, kv.1 = size) ((λ r, (rec_size r, rec_path r)) <$> recs)).*2 =
  (filter (λ f : Path * Z, f.2 = size)
     ((λ rec, (rec_path rec, rec_size rec)) <$> recs)).*1.
Proof.
  induction recs as [|r recs IH]; [done|].
  rewrite !fmap_cons, !filter_cons. cbn [fst snd].
  case_decide; [rewrite !fmap_cons; cbn [fst snd]; by rewrite IH | done].
Qed.

(** X4.  When the scan returns, the size index splits [all_files] by size: no
    size occurs as a key twice, and an entry belongs to the index exactly
    when its bucket is not empty and lists, in walk order, the paths of the
    files of that size. *)
Theorem size_index_partition (fs : FileSystem) (r : ScanResult) :
  scan_directory fs = Ok r →
  NoDup (size_index r).*1 ∧
  ∀ (size : Z) (paths : list Path),
    (size, paths) ∈ size_index r ↔
    paths ≠ [] ∧
    paths = (filter (λ f : Path * Z, f.2 = size) (all_files r)).*1.
Proof.
  intros ->%scan_directory_Ok.
  destruct (aggregate_totals (records fs)) as (_ & _ & ->).
  rewrite size_index_aggregate. split; [apply od_of_keys_NoDup|].
  intros size paths. rewrite elem_of_od_of, size_pairs_filter.
  rewrite <- list_fmap_compose.
  set (files := (λ rec, (rec_path rec, rec_size rec)) <$> records fs).
  split.
  - intros [(rec & Hsize & Hrec)%list_elem_of_fmap ->]. split; [|done].
    simpl in Hsize. intros Hnil.
    assert (Hin : rec_path rec ∈
      (filter (λ f : Path * Z, f.2 = size) files).*1).
    { apply list_elem_of_fmap. exists (rec_path rec, rec_size rec).
      split; [done|]. apply list_elem_of_filter. split; [done|].
      apply list_elem_of_fmap. by exists rec. }
    rewrite Hnil in Hin. by apply not_elem_of_nil in Hin.
  - intros [Hne ->]. split; [|done].
    destruct (filter (λ f : Path * Z, f.2 = size) files) as [|[p sz] l] eqn:Hf;
      [done|].
    assert (Hin : (p, sz) ∈ filter (λ f : Path * Z, f.2 = size) files)
      by (rewrite Hf; left).
    apply list_elem_of_filter in Hin as [Hsz (rec & [= -> ->] & Hrec)%list_elem_of_fmap].
    apply list_elem_of_fmap. by exists rec.
Qed.

(** ** Exceptions that leave the scan *)

Lemma visit_file_raises (fs : FileSystem) (d : Path) (st : ScanResult)
    (n : string) (e : OSError) :
  visit_file fs d st n = Raise e ↔
  e = OtherOSError ∧ stat_size fs (Pathlib.joinpath d n) = Raise OtherOSError.
Proof.
  unfold visit_file.
  destruct (stat_size fs (Pathlib.joinpath d n)) as [size|[]]; split;
    try done; try (by intros [_ ?]).
  - by intros [= <-].
  - by intros [-> _].
Qed.

Lemma scan_loop_raises (fs : FileSystem) (es : list (Path * string))
    (st : ScanResult) (e : OSError) :
  for_each (λ s en, visit_file fs en.1 s en.2) es st = Raise e ↔
  e = OtherOSError ∧
  ∃ en, en ∈ es ∧ stat_size fs (Pathlib.joinpath en.1 en.2) = Raise OtherOSError.
Proof.
  revert st. induction es as [|[d n] es IH]; intros st; simpl.
  - split; [done | by intros [_ (? & ?%not_elem_of_nil & _)]].
  - destruct (visit_file fs d st n) as [st'|e'] eqn:Hv.
    + rewrite IH. split.
      * intros [-> (en & Hen & Hs)]. split; [done|]. exists en. split; [by right|done].
      * intros [-> (en & [->|Hen]%elem_of_cons & Hs)]; split; try done.
        -- simpl in Hs. assert (Hr : visit_file fs d st n = Raise OtherOSError)
             by (by apply visit_file_raises).
           congruence.
        -- by exists en.
    + apply visit_file_raises in Hv as [-> Hs]. split.
      * intros [= <-]. split; [done|]. exists (d, n). split; [by left|done].
      * by intros [-> _].
Qed.

(** X5.  The scan raises exactly when the [stat] of some listed path raises
    an exception that is neither [FileNotFoundError] nor [PermissionError],
    and then it raises that class and hands back no partial result; the two
    caught classes never leave the function. *)
Theorem scan_raises_uncaught_only (fs : FileSystem) :
  (scan_directory fs = Raise OtherOSError ↔
   ∃ path, path ∈ listed fs ∧ stat_size fs path = Raise OtherOSError) ∧
  scan_directory fs ≠ Raise FileNotFoundError ∧
  scan_directory fs ≠ Raise PermissionError.
Proof.
  unfold scan_directory. rewrite scan_loop_entries. split; [|split].
  - rewrite scan_loop_raises. unfold listed. split.
    + intros [_ (en & Hen & Hs)]. exists (Pathlib.joinpath en.1 en.2).
      split; [|done]. apply list_elem_of_fmap. by exists en.
    + intros (path & (en & -> & Hen)%list_elem_of_fmap & Hs).
      split; [done|]. by exists en.
  - by intros [? _]%scan_loop_raises.
  - by intros [? _]%scan_loop_raises.
Qed.

(** ** Directories and their subdirectories *)

Lemma under_subdirectory (d d' : Path) (recs : list FileRecord) :
  d `prefix_of` d' →
  (length (under d' recs) ≤ length (under d recs))%nat ∧
  (Forall (λ rec, 0 ≤ rec_size rec) recs →
   0 ≤ sum_sizes (under d' recs) ≤ sum_sizes (under d recs)).
Proof.
  intros Hd. unfold under. induction recs as [|rec recs [IHc IHs]].
  - split; [done|]. intros _. by cbn.
  - rewrite !filter_cons.
    destruct (decide (d' `prefix_of` rec_dir rec)) as [Hd'|Hd'].
    + rewrite decide_True by (by etrans). split; [simpl; lia|].
      intros [Hrec Hrecs]%Forall_cons. specialize (IHs Hrecs).
      unfold sum_sizes in *. simpl. lia.
    + case_decide; (split; [simpl; lia|]);
        intros [Hrec Hrecs]%Forall_cons; specialize (IHs Hrecs);
        unfold sum_sizes in *; simpl; lia.
Qed.

Lemma records_sizes (fs : FileSystem) (rec : FileRecord) :
  rec ∈ records fs →
  rec_path rec ∈ listed fs ∧ stat_size fs (rec_path rec) = Ok (rec_size rec).
Proof.
  intros [Hen Hs]%elem_of_records. split; [|done].
  unfold listed. apply list_elem_of_fmap. by exists (rec_dir rec, rec_name rec).
Qed.

(** X6.  When the scan returns, a directory never counts fewer files than a
    directory below it, and, when no [stat] reports a negative size, never
    fewer bytes; counts and, then, sizes are never negative. *)
Theorem subdirectory_totals_bounded (fs : FileSystem) (r : ScanResult)
    (d d' : Path) :
  scan_directory fs = Ok r →
  d `prefix_of` d' →
  0 ≤ dir_count (dir_lookup (dir_stats r) d')
    ≤ dir_count (dir_lookup (dir_stats r) d) ∧
  ((∀ (path : Path) (size : Z),
      path ∈ listed fs → stat_size fs path = Ok size → 0 ≤ size) →
   0 ≤ dir_size (dir_lookup (dir_stats r) d')
     ≤ dir_size (dir_lookup (dir_stats r) d)).
Proof.
  intros ->%scan_directory_Ok Hd.
  destruct (aggregate_rollup (records fs) d) as (Hc & Hs & _).
  destruct (aggregate_rollup (records fs) d') as (Hc' & Hs' & _).
  destruct (under_subdirectory d d' (records fs) Hd) as [Hlen Hsum].
  rewrite Hc, Hc', Hs, Hs'. unfold file_count. split; [lia|].
  intros Hpos. apply Hsum. apply Forall_forall. intros rec Hrec.
  apply records_sizes in Hrec as [Hin Hstat]. by eapply Hpos.
Qed.

(** ** The ancestor chain *)

(** X7.  The chain of a directory with [n] parts has [n + 1] entries without
    repetition: it starts with the directory itself, ends with the root, and
    holds exactly the prefixes of the directory.  For the root it is the root
    alone. *)
Theorem ancestors_chain (rel_dir : Path) :
  length (ancestors rel_dir) = S (length rel_dir) ∧
  head (ancestors rel_dir) = Some rel_dir ∧
  last (ancestors rel_dir) = Some Pathlib.dot ∧
  NoDup (ancestors rel_dir) ∧
  ∀ d : Path, d ∈ ancestors rel_dir ↔ d `prefix_of` rel_dir.
Proof.
  split; [|split; [|split; [|split]]].
  - unfold ancestors. destruct rel_dir as [|x p]; [done|].
    cbn [Pathlib.is_dot]. unfold Pathlib.parents.
    by rewrite length_cons, length_fmap, length_seq.
  - by destruct rel_dir.
  - unfold ancestors. destruct rel_dir as [|x p]; [done|].
    cbn [Pathlib.is_dot]. unfold Pathlib.parents.
    cbn [length]. rewrite seq_S, fmap_app. cbn [fmap list_fmap].
    rewrite app_comm_cons, last_snoc. f_equal.
    by replace (S (length p) - (0 + length p) - 1)%nat with 0%nat by lia.
  - apply NoDup_ancestors.
  - intros d. apply elem_of_ancestors.
Qed.

(** ** Extension keys and letter case *)

Lemma ascii_lower_char_dot (a : ascii) :
  Ascii.eqb (ascii_lower_char a) "." = Ascii.eqb a ".".
Proof. by destruct a as [[] [] [] [] [] [] [] []]. Qed.

Lemma ascii_lower_char_idemp (a : ascii) :
  ascii_lower_char (ascii_lower_char a) = ascii_lower_char a.
Proof. by destruct a as [[] [] [] [] [] [] [] []]. Qed.

Lemma ascii_lower_idemp (s : string) : ascii_lower (ascii_lower s) = ascii_lower s.
Proof.
  induction s as [|a s IH]; [done|]. simpl. by rewrite ascii_lower_char_idemp, IH.
Qed.

Lemma rfind_ascii_lower (s : string) :
  Pathlib.rfind "." (ascii_lower s) = Pathlib.rfind "." s.
Proof.
  induction s as [|a s IH]; [done|].
  cbn [ascii_lower Pathlib.rfind]. by rewrite IH, ascii_lower_char_dot.
Qed.

Lemma length_ascii_lower (s : string) :
  String.length (ascii_lower s) = String.length s.
Proof. induction s as [|a s IH]; [done|]. simpl. by rewrite IH. Qed.

Lemma slice_from_ascii_lower (i : nat) (s : string) :
  Pathlib.slice_from i (ascii_lower s) = ascii_lower (Pathlib.slice_from i s).
Proof.
  revert s. induction i as [|i IH]; intros s; [done|].
  destruct s as [|a s]; [done|]. apply IH.
Qed.

(** On ASCII names the suffix of the lowered name is the lowered suffix. *)
Lemma suffix_ascii_lower (dir dir' : Path) (name : string) :
  Pathlib.suffix (Pathlib.joinpath dir (ascii_lower name)) =
  ascii_lower (Pathlib.suffix (Pathlib.joinpath dir' name)).
Proof.
  unfold Pathlib.suffix.
  rewrite !name_joinpath, rfind_ascii_lower, length_ascii_lower.
  case_match; [apply slice_from_ascii_lower | done].
Qed.

Lemma isascii_slice_from (i : nat) (s : string) :
  isascii s = true → isascii (Pathlib.slice_from i s) = true.
Proof.
  revert s. induction i as [|i IH]; intros s Hs; [done|].
  destruct s as [|a s]; [done|]. simpl in Hs.
  apply andb_true_iff in Hs as [_ Hs]. by apply IH.
Qed.

Lemma isascii_suffix (dir : Path) (name : string) :
  isascii name = true → isascii (Pathlib.suffix (Pathlib.joinpath dir name)) = true.
Proof.
  intros Hname. unfold Pathlib.suffix. rewrite name_joinpath.
  case_match; [by apply isascii_slice_from | done].
Qed.

Section ascii_names.

Context `{!StrLowerLaws}.

Lemma extension_key_ascii (dir dir' : Path) (name : string) :
  isascii name = true →
  extension_key (Pathlib.joinpath dir name) =
  match Pathlib.suffix (Pathlib.joinpath dir' (ascii_lower name)) with
  | EmptyString => NO_EXT
  | ext => ext
  end.
Proof.
  intros Hname. unfold extension_key.
  rewrite str_lower_ascii by (by apply isascii_suffix).
  rewrite (suffix_ascii_lower dir' dir name).
  by destruct (ascii_lower (Pathlib.suffix (Pathlib.joinpath dir name))).
Qed.

(** X8.  The key of a file with an ASCII name depends only on the name, not
    on the directory, and not on the case of its letters: two ASCII names that
    differ only in the case of the letters A to Z get the same key. *)
Theorem extension_key_ignores_case (dir dir' : Path) (name name' : string) :
  isascii name = true → isascii name' = true →
  ascii_lower name = ascii_lower name' →
  extension_key (Pathlib.joinpath dir name) =
  extension_key (Pathlib.joinpath dir' name').
Proof.
  intros Hname Hname' Hlow.
  rewrite (extension_key_ascii dir dir name), (extension_key_ascii dir' dir name')
    by done.
  by rewrite Hlow.
Qed.

End ascii_names.

(** ** The hasher and the chunk size *)



(** ** Which paths are hashed, and which groups come out *)

(** X10.  The hasher is called on exactly the paths of the buckets with at
    least two paths, a path that cannot be hashed included; the number of
    calls is at most the number of paths in the index, no path is hashed twice
    when the index holds no path twice, and every member of an emitted group
    was hashed. *)
Theorem hasher_called_on_candidates (hasher : Path → result string)
    (size_index : list (Z * list Path)) :
  (∀ p : Path,
     p ∈ hashed (resolve hasher size_index) ↔
     ∃ (size : Z) (paths : list Path),
       (size, paths) ∈ size_index ∧ (1 < length paths)%nat ∧ p ∈ paths) ∧
  (length (hashed (resolve hasher size_index)) ≤ length (concat size_index.*2))%nat ∧
  (NoDup (concat size_index.*2) → NoDup (hashed (resolve hasher size_index))) ∧
  (∀ (g : list Path) (p : Path),
     g ∈ find_duplicate_candidates hasher size_index → p ∈ g →
     p ∈ hashed (resolve hasher size_index)).
Proof.
  assert (Hsub : concat (candidates size_index).*2 `sublist_of` concat size_index.*2).
  { induction size_index as [|[size paths] si IH]; [done|].
    rewrite candidates_cons, fmap_cons. cbn [snd concat].
    case_decide; [rewrite fmap_cons; cbn [snd concat]; by apply sublist_app|].
    by apply sublist_inserts_l. }
  assert (Hmem : ∀ p : Path,
    p ∈ hashed (resolve hasher size_index) ↔
    ∃ (size : Z) (paths : list Path),
      (size, paths) ∈ size_index ∧ (1 < length paths)%nat ∧ p ∈ paths).
  { intros p. rewrite hashed_spec, elem_of_concat. split.
    - intros (paths & (Hlen & size & Hin)%elem_of_candidates & Hp).
      by exists size, paths.
    - intros (size & paths & Hin & Hlen & Hp). exists paths.
      split; [|done]. apply elem_of_candidates. eauto. }
  split; [done|]. rewrite hashed_spec. split; [|split].
  - by apply sublist_length.
  - intros Hnd. by eapply sublist_NoDup.
  - intros g p (size & paths & h & Hin & Hlen & -> & _)%elem_of_duplicates
      [_ Hp]%elem_of_same_digest.
    rewrite <- (hashed_spec hasher). apply Hmem. by exists size, paths.
Qed.

(** X11.  The emitted groups are exactly these: for a bucket with at least
    two paths and a digest that at least two of its paths have, the list of
    all paths of the bucket with that digest, in the order of the bucket. *)
Theorem duplicate_groups_exact (hasher : Path → result string)
    (size_index : list (Z * list Path)) (g : list Path) :
  g ∈ find_duplicate_candidates hasher size_index ↔
  ∃ (size : Z) (paths : list Path) (h : string),
    (size, paths) ∈ size_index ∧ (1 < length paths)%nat ∧
    g = filter (λ p, hasher p = Ok h) paths ∧ (1 < length g)%nat.
Proof. apply elem_of_duplicates. Qed.

(** X12.  After a scan, every member of every group is a listed path that
    [stat] gave a size and that could be read; the members of one group have
    one size and contents with one digest.  A path that was skipped or could
    not be read is in no group. *)
Theorem groups_hold_scanned_files (md5 : list byte → string) (fs : FileSystem)
    (groups : list (list Path)) :
  scan_and_resolve md5 fs = Ok groups →
  ∀ g : list Path, g ∈ groups →
    ∃ (size : Z) (h : string),
      ∀ p : Path, p ∈ g →
        p ∈ listed fs ∧ stat_size fs p = Ok size ∧
        ∃ content : list byte, read_bytes fs p = Ok content ∧ md5 content = h.
Proof.
  unfold scan_and_resolve.
  destruct (scan_directory fs) as [data|e] eqn:Hscan; [|done].
  apply scan_directory_Ok in Hscan as ->. intros [= <-] g
    (size & paths & h & Hin & _ & -> & _)%elem_of_duplicates.
  exists size, h. intros p [Hh Hp]%elem_of_same_digest.
  apply (elem_of_size_index _ _ _ Hin) in Hp as (rec & Hrec & <- & <-).
  apply records_sizes in Hrec as [Hlisted Hstat]. split; [done|]. split; [done|].
  rewrite hash_file_content in Hh.
  destruct (read_bytes fs (rec_path rec)) as [content|]; [|done].
  exists content. split; [done|]. by injection Hh.
Qed.

(** ** The largest files *)

Lemma insert_desc_perm (x : Path * Z) (l : list (Path * Z)) :
  insert_desc x l ≡ₚ x :: l.
Proof.
  induction l as [|y l IH]; [done|]. simpl. case_match; [done|].
  rewrite IH. apply Permutation_swap.
Qed.

Lemma sorted_by_size_desc_perm (l : list (Path * Z)) :
  sorted_by_size_desc l ≡ₚ l.
Proof.
  induction l as [|x l IH]; [done|].
  cbn [sorted_by_size_desc foldr]. fold (sorted_by_size_desc l).
  by rewrite insert_desc_perm, IH.
Qed.

Lemma insert_desc_sorted (x : Path * Z) (l : list (Path * Z)) :
  StronglySorted size_desc l → StronglySorted size_desc (insert_desc x l).
Proof.
  induction l as [|y l IH]; intros Hl; simpl.
  - apply StronglySorted_cons. by split; [constructor|].
  - apply StronglySorted_cons in Hl as [Hy Hl].
    destruct (Z.leb_spec y.2 x.2) as [Hle|Hlt].
    + apply StronglySorted_cons. split.
      * constructor; [done|]. eapply Forall_impl; [done|].
        unfold size_desc. intros z Hz. lia.
      * by apply StronglySorted_cons.
    + apply StronglySorted_cons. split; [|by apply IH].
      rewrite insert_desc_perm. constructor; [|done]. unfold size_desc. lia.
Qed.

Lemma sorted_by_size_desc_sorted (l : list (Path * Z)) :
  StronglySorted size_desc (sorted_by_size_desc l).
Proof.
  induction l as [|x l IH]; [constructor|].
  cbn [sorted_by_size_desc foldr]. by apply insert_desc_sorted.
Qed.

Lemma insert_desc_filter (k : Z) (x : Path * Z) (l : list (Path * Z)) :
  filter (λ f : Path * Z, f.2 = k) (insert_desc x l) =
  filter (λ f : Path * Z, f.2 = k) (x :: l).
Proof.
  induction l as [|y l IH]; [done|]. simpl.
  destruct (Z.leb_spec y.2 x.2) as [Hle|Hlt]; [done|].
  rewrite (filter_cons _ y), IH, !(filter_cons _ x), !(filter_cons _ y).
  destruct (decide (y.2 = k)), (decide (x.2 = k)); try done. lia.
Qed.

(** Sorting keeps the records of one size in the order they had. *)
Lemma sorted_by_size_desc_stable (k : Z) (l : list (Path * Z)) :
  filter (λ f : Path * Z, f.2 = k) (sorted_by_size_desc l) =
  filter (λ f : Path * Z, f.2 = k) l.
Proof.
  induction l as [|x l IH]; [done|].
  cbn [sorted_by_size_desc foldr]. fold (sorted_by_size_desc l).
  by rewrite insert_desc_filter, !(filter_cons _ x), IH.
Qed.

(** Two lists in non-increasing order that agree on the records of every
    size, order included, are equal: the stable arrangement is unique. *)
Lemma stable_arrangement_unique (a b : list (Path * Z)) :
  StronglySorted size_desc a → StronglySorted size_desc b →
  (∀ k, filter (λ f : Path * Z, f.2 = k) a = filter (λ f : Path * Z, f.2 = k) b) →
  a = b.
Proof.
  revert b. induction a as [|x a IH]; intros b Ha Hb Hfilter.
  - destruct b as [|y b]; [done|]. specialize (Hfilter y.2).
    by rewrite filter_cons_True in Hfilter.
  - destruct b as [|y b].
    { specialize (Hfilter x.2). by rewrite filter_cons_True in Hfilter. }
    apply StronglySorted_cons in Ha as [Hx Ha].
    apply StronglySorted_cons in Hb as [Hy Hb].
    rewrite Forall_forall in Hx, Hy.
    assert (Hyx : y.2 ≤ x.2).
    { assert (Hin : y ∈ filter (λ f : Path * Z, f.2 = y.2) (x :: a)).
      { rewrite Hfilter, filter_cons_True by done. left. }
      apply list_elem_of_filter in Hin as [_ [->|Hin]%elem_of_cons]; [lia|].
      by apply Hx. }
    assert (Hxy : x.2 ≤ y.2).
    { assert (Hin : x ∈ filter (λ f : Path * Z, f.2 = x.2) (y :: b)).
      { rewrite <- Hfilter, filter_cons_True by done. left. }
      apply list_elem_of_filter in Hin as [_ [->|Hin]%elem_of_cons]; [lia|].
      by apply Hy. }
    assert (Heq : x.2 = y.2) by lia.
    pose proof (Hfilter x.2) as Hhead.
    rewrite !filter_cons_True in Hhead by done. injection Hhead as -> Htail.
    f_equal. apply IH; [done..|]. intros k.
    destruct (decide (y.2 = k)) as [<-|Hk]; [done|].
    specialize (Hfilter k). by rewrite !filter_cons_False in Hfilter.
Qed.

Lemma find_largest_files_take (all_files : list (Path * Z)) (top_n : Z) :
  ∃ m : nat,
    find_largest_files all_files top_n = take m (sorted_by_size_desc all_files) ∧
    (0 ≤ top_n → m = Z.to_nat top_n) ∧
    (top_n < 0 → m = Z.to_nat (Z.of_nat (length all_files) + top_n)).
Proof.
  unfold find_largest_files, slice_to.
  destruct (Z.leb_spec 0 top_n) as [Hpos|Hneg].
  - exists (Z.to_nat top_n). split; [done|]. split; [done | lia].
  - exists (Z.to_nat (Z.of_nat (length all_files) + top_n)).
    rewrite (Permutation_length (sorted_by_size_desc_perm all_files)).
    split; [done|]. split; [lia | done].
Qed.

(** X13.  For [top_n] at least 0 the function returns [min(top_n, len)] of
    the given records, in non-increasing order of size, and every record it
    leaves out is at most as large as every record it returns. *)
Theorem largest_files_are_largest (all_files : list (Path * Z)) (top_n : Z) :
  0 ≤ top_n →
  length (find_largest_files all_files top_n) =
    Nat.min (Z.to_nat top_n) (length all_files) ∧
  StronglySorted size_desc (find_largest_files all_files top_n) ∧
  ∃ rest : list (Path * Z),
    find_largest_files all_files top_n ++ rest ≡ₚ all_files ∧
    ∀ x y : Path * Z,
      x ∈ find_largest_files all_files top_n → y ∈ rest → y.2 ≤ x.2.
Proof.
  intros Hpos.
  destruct (find_largest_files_take all_files top_n) as (m & -> & Hm & _).
  rewrite (Hm Hpos). clear m Hm.
  pose proof (sorted_by_size_desc_sorted all_files) as Hsorted.
  rewrite <- (take_drop (Z.to_nat top_n)) in Hsorted.
  apply StronglySorted_app in Hsorted as (Hcross & Htake & _).
  split; [|split; [done|]].
  - by rewrite length_take, (Permutation_length (sorted_by_size_desc_perm all_files)).
  - exists (drop (Z.to_nat top_n) (sorted_by_size_desc all_files)). split.
    + rewrite take_drop. apply sorted_by_size_desc_perm.
    + intros x y Hx Hy. by apply Hcross.
Qed.

(** X14.  Among records of equal size the function keeps the order of the
    input and prefers the earlier ones: for every size, the returned records
    of that size are an initial part of the input's records of that size. *)
Theorem largest_files_keep_order_of_ties (all_files : list (Path * Z))
    (top_n k : Z) :
  filter (λ f : Path * Z, f.2 = k) (find_largest_files all_files top_n)
    `prefix_of` filter (λ f : Path * Z, f.2 = k) all_files.
Proof.
  destruct (find_largest_files_take all_files top_n) as (m & -> & _).
  rewrite <- (sorted_by_size_desc_stable k all_files).
  rewrite <- (take_drop m (sorted_by_size_desc all_files)) at 2.
  rewrite filter_app. by apply prefix_app_r.
Qed.

(** X15.  The slice at the edges: no record is returned for [top_n = 0] or
    for an empty list; with [top_n] at least the number of records all of them
    are returned, sorted; a negative [top_n] does not give an empty result but
    leaves out the [-top_n] last records of the sorted list. *)
Theorem largest_files_slice_edges (all_files : list (Path * Z)) (top_n : Z) :
  find_largest_files [] top_n = [] ∧
  find_largest_files all_files 0 = [] ∧
  (Z.of_nat (length all_files) ≤ top_n →
   find_largest_files all_files top_n = sorted_by_size_desc all_files ∧
   find_largest_files all_files top_n ≡ₚ all_files) ∧
  (top_n < 0 →
   find_largest_files all_files top_n =
     take (Z.to_nat (Z.of_nat (length all_files) + top_n))
          (sorted_by_size_desc all_files) ∧
   Z.of_nat (length (find_largest_files all_files top_n)) =
     Z.max 0 (Z.of_nat (length all_files) + top_n)).
Proof.
  split; [|split; [|split]].
  - unfold find_largest_files, slice_to. simpl. case_match; by rewrite take_nil.
  - done.
  - intros Hall.
    destruct (find_largest_files_take all_files top_n) as (m & -> & Hm & _).
    rewrite Hm by lia. rewrite take_ge.
    + split; [done | apply sorted_by_size_desc_perm].
    + rewrite (Permutation_length (sorted_by_size_desc_perm all_files)). lia.
  - intros Hneg.
    destruct (find_largest_files_take all_files top_n) as (m & -> & _ & Hm).
    rewrite (Hm Hneg). split; [done|].
    rewrite length_take, (Permutation_length (sorted_by_size_desc_perm all_files)).
    lia.
Qed.

(** The sorted list is the only reordering into non-increasing sizes that
    keeps the records of every size in their order. *)
Lemma sorted_by_size_desc_unique (l l' : list (Path * Z)) :
  StronglySorted size_desc l' →
  (∀ k, filter (λ f : Path * Z, f.2 = k) l' = filter (λ f : Path * Z, f.2 = k) l) →
  l' = sorted_by_size_desc l.
Proof.
  intros Hsorted Hstable. apply stable_arrangement_unique;
    [done | apply sorted_by_size_desc_sorted |].
  intros k. by rewrite sorted_by_size_desc_stable.
Qed.

(** ** The report of the duplicates *)

Lemma path_line_inj (str_path : Path → string) (p q : Path) :
  path_line str_path p = path_line str_path q ↔ str_path p = str_path q.
Proof.
  unfold path_line. rewrite !append_cons, append_empty. split.
  - by intros [= ->].
  - by intros ->.
Qed.

Lemma path_line_not_header (str_path : Path → string) (p : Path) (s : string) :
  path_line str_path p ≠ "Group " +:+ s.
Proof. unfold path_line. by rewrite !append_cons. Qed.

Lemma path_line_not_empty (str_path : Path → string) (p : Path) :
  path_line str_path p ≠ EmptyString.
Proof. unfold path_line. by rewrite !append_cons. Qed.

Lemma path_line_in_groups (str_path : Path → string) (i : Z)
    (groups : list (list Path)) (p : Path) :
  path_line str_path p ∈ print_groups str_path i groups ↔
  ∃ (g : list Path) (q : Path), g ∈ groups ∧ q ∈ g ∧ str_path q = str_path p.
Proof.
  revert i. induction groups as [|g groups IH]; intros i.
  - split; [by intros ?%not_elem_of_nil | by intros (? & ? & ?%not_elem_of_nil & _)].
  - cbn [print_groups]. rewrite elem_of_cons, elem_of_app, elem_of_cons, IH.
    rewrite list_elem_of_fmap. split.
    + intros [Hh|[(q & Hq & Hin)|[He|(g' & q & Hg' & Hq & Hs)]]].
      * by apply path_line_not_header in Hh.
      * exists g, q. split; [by left|]. split; [done|].
        symmetry. by apply path_line_inj.
      * by apply path_line_not_empty in He.
      * exists g', q. split; [by right | done].
    + intros (g' & q & [->|Hg']%elem_of_cons & Hq & Hs).
      * right. left. exists q. split; [|done]. symmetry. by apply path_line_inj.
      * right. right. right. by exists g', q.
Qed.

Lemma length_print_groups (str_path : Path → string) (i : Z)
    (groups : list (list Path)) :
  length (print_groups str_path i groups) =
  (length (concat groups) + 2 * length groups)%nat.
Proof.
  revert i. induction groups as [|g groups IH]; intros i; [done|].
  cbn [print_groups concat]. rewrite length_cons, !length_app, length_cons, IH.
  rewrite length_fmap. simpl. lia.
Qed.

Lemma header_in_groups (str_path : Path → string) (i : Z)
    (groups : list (list Path)) (j : nat) (g : list Path) :
  groups !! j = Some g →
  ("Group " +:+ pretty (i + Z.of_nat j) +:+ " (" +:+
     pretty (Z.of_nat (length g)) +:+ " files):")
  ∈ print_groups str_path i groups.
Proof.
  revert i j. induction groups as [|g0 groups IH]; intros i j Hj; [done|].
  cbn [print_groups]. destruct j as [|j].
  - injection Hj as ->. rewrite Z.add_0_r. left.
  - right. apply elem_of_app. right. right.
    replace (i + Z.of_nat (S j)) with (i + 1 + Z.of_nat j) by lia. by apply IH.
Qed.

Lemma print_groups_blocks (str_path : Path → string) (i : Z)
    (groups : list (list Path)) :
  print_groups str_path i groups =
  concat (imap (λ j group, group_block str_path (i + Z.of_nat j) group) groups).
Proof.
  revert i. induction groups as [|g groups IH]; intros i; [done|].
  cbn [print_groups imap concat]. rewrite Z.add_0_r. unfold group_block at 1.
  rewrite <- app_comm_cons, <- (assoc_L (++)). f_equal. f_equal.
  cbn [app]. f_equal. rewrite IH. f_equal.
  apply imap_ext. intros j g' _. cbn [compose]. f_equal. lia.
Qed.

(** X16.  Without groups the report is the heading and the line that none
    was found.  With groups and [max_groups] at least 0 the report is, in this
    order, the heading, the line that tells [max_groups], and then for each of
    the first [max_groups] groups, in their order, its block: a line with its
    number, counted from 1, and its member count, one line per member in the
    order of the group, and an empty line.  So the report has the length given
    and a path line is printed exactly for the members of the shown groups. *)
Theorem print_duplicates_shows_first_groups (str_path : Path → string)
    (duplicates : list (list Path)) (max_groups : Z) :
  print_duplicates str_path [] max_groups =
    [nl +:+ "=== Possible Duplicates ===";
     "No likely duplicates found (at least by size + content hash)."]%string ∧
  (duplicates ≠ [] → 0 ≤ max_groups →
   print_duplicates str_path duplicates max_groups =
     (nl +:+ "=== Possible Duplicates ===") ::
     ("Showing up to " +:+ pretty max_groups +:+ " groups of duplicates:" +:+ nl) ::
     concat (imap (λ j group, group_block str_path (1 + Z.of_nat j) group)
               (take (Z.to_nat max_groups) duplicates)) ∧
   length (print_duplicates str_path duplicates max_groups) =
     (2 + length (concat (take (Z.to_nat max_groups) duplicates))
        + 2 * length (take (Z.to_nat max_groups) duplicates))%nat ∧
   (∀ (j : nat) (g : list Path),
      take (Z.to_nat max_groups) duplicates !! j = Some g →
      ("Group " +:+ pretty (1 + Z.of_nat j) +:+ " (" +:+
         pretty (Z.of_nat (length g)) +:+ " files):")
      ∈ print_duplicates str_path duplicates max_groups) ∧
   (∀ p : Path,
      path_line str_path p ∈ print_duplicates str_path duplicates max_groups ↔
      ∃ (g : list Path) (q : Path),
        g ∈ take (Z.to_nat max_groups) duplicates ∧ q ∈ g ∧
        str_path q = str_path p)).
Proof.
  split; [done|]. intros Hne Hpos.
  assert (Hout : print_duplicates str_path duplicates max_groups =
    (nl +:+ "=== Possible Duplicates ===") ::
    ("Showing up to " +:+ pretty max_groups +:+ " groups of duplicates:" +:+ nl) ::
    print_groups str_path 1 (take (Z.to_nat max_groups) duplicates)).
  { unfold print_duplicates, slice_to. destruct duplicates; [done|].
    by rewrite (proj2 (Z.leb_le _ _)) by done. }
  split; [by rewrite Hout, print_groups_blocks|].
  rewrite Hout. split; [|split].
  - rewrite !length_cons, length_print_groups. lia.
  - intros j g Hj. right. right. by apply header_in_groups.
  - intros p. rewrite !elem_of_cons, path_line_in_groups. split.
    + intros [Hh|[Hs|Hin]]; [| |done].
      * unfold path_line, nl in Hh. by rewrite !append_cons in Hh.
      * unfold path_line in Hs. by rewrite !append_cons in Hs.
    + intros Hin. by right; right.
Qed.

(** ** The statistics do not depend on the order of the walk *)








(** ** When two files are reported together *)

Lemma equal_digest_grouped (hasher : Path → result string)
    (recs : list FileRecord) (rp rq : FileRecord) (h : string) :
  rp ∈ recs → rq ∈ recs → rec_size rp = rec_size rq →
  rec_path rp ≠ rec_path rq →
  hasher (rec_path rp) = Ok h → hasher (rec_path rq) = Ok h →
  ∃ g : list Path,
    g ∈ find_duplicate_candidates hasher (size_index (aggregate recs)) ∧
    rec_path rp ∈ g ∧ rec_path rq ∈ g.
Proof.
  intros Hrp Hrq Hsize Hne Hhp Hhq.
  destruct (size_index_bucket recs rp Hrp) as [paths Hbucket].
  pose proof (elem_of_size_index recs _ paths Hbucket) as Hmem.
  assert (Hp : rec_path rp ∈ paths) by (apply Hmem; by exists rp).
  assert (Hq : rec_path rq ∈ paths) by (apply Hmem; by exists rq).
  exists (same_digest hasher h paths).
  assert (Hpg : rec_path rp ∈ same_digest hasher h paths)
    by (by apply elem_of_same_digest).
  assert (Hqg : rec_path rq ∈ same_digest hasher h paths)
    by (by apply elem_of_same_digest).
  split; [|done]. apply elem_of_duplicates. exists (rec_size rp), paths, h.
  split; [done|]. split; [by apply (two_members_length _ _ _ Hp Hq)|].
  split; [done|]. by apply (two_members_length _ _ _ Hpg Hqg).
Qed.

(** X18.  After a scan, two different listed paths are members of a common
    group exactly when [stat] gave both the same size, both could be read and
    their contents have the same digest.  The contents themselves are not
    compared: equal digests are enough. *)
Theorem grouped_iff_same_size_and_digest (md5 : list byte → string)
    (fs : FileSystem) (groups : list (list Path)) (p q : Path) :
  scan_and_resolve md5 fs = Ok groups →
  p ∈ listed fs → q ∈ listed fs → p ≠ q →
  (∃ g : list Path, g ∈ groups ∧ p ∈ g ∧ q ∈ g) ↔
  ∃ (size : Z) (cp cq : list byte),
    stat_size fs p = Ok size ∧ stat_size fs q = Ok size ∧
    read_bytes fs p = Ok cp ∧ read_bytes fs q = Ok cq ∧ md5 cp = md5 cq.
Proof.
  unfold scan_and_resolve.
  destruct (scan_directory fs) as [data|e] eqn:Hscan; [|done].
  apply scan_directory_Ok in Hscan as ->. intros [= <-] Hp Hq Hne. split.
  - intros (g & (size & paths & h & Hin & _ & -> & _)%elem_of_duplicates & Hpg & Hqg).
    apply elem_of_same_digest in Hpg as [Hhp Hpin], Hqg as [Hhq Hqin].
    apply (elem_of_size_index _ _ _ Hin) in Hpin as (rp & Hrp & <- & <-).
    apply (elem_of_size_index _ _ _ Hin) in Hqin as (rq & Hrq & <- & Hsize).
    apply records_sizes in Hrp as [_ Hsp], Hrq as [_ Hsq].
    rewrite hash_file_content in Hhp, Hhq.
    destruct (read_bytes fs (rec_path rp)) as [cp|]; [|done].
    destruct (read_bytes fs (rec_path rq)) as [cq|]; [|done].
    exists (rec_size rp), cp, cq. rewrite <- Hsize.
    split; [by rewrite Hsize|]. split; [done|]. split; [done|]. split; [done|].
    congruence.
  - intros (size & cp & cq & Hsp & Hsq & Hcp & Hcq & Hdigest).
    destruct (listed_record fs p size Hp Hsp) as (rp & Hrp & <- & Hsize_p).
    destruct (listed_record fs q size Hq Hsq) as (rq & Hrq & <- & Hsize_q).
    apply (equal_digest_grouped _ _ rp rq (md5 cp)); [done..|lia|done| |].
    + by rewrite hash_file_content, Hcp.
    + by rewrite hash_file_content, Hcq, Hdigest.
Qed.

(** ** The largest files of a scan *)

(** X19.  After a scan, every record among the largest files is a listed
    path together with the size [stat] gave it, and for [top_n] at least 0
    their number is the smaller of [top_n] and [total_files]. *)
Theorem largest_files_of_scan (fs : FileSystem) (r : ScanResult) (top_n : Z) :
  scan_directory fs = Ok r →
  (∀ f : Path * Z,
     f ∈ find_largest_files (all_files r) top_n →
     f.1 ∈ listed fs ∧ stat_size fs f.1 = Ok f.2) ∧
  (0 ≤ top_n →
   Z.of_nat (length (find_largest_files (all_files r) top_n)) =
   Z.min top_n (total_files r)).
Proof.
  intros Hscan. split.
  - intros f Hf.
    destruct (find_largest_files_take (all_files r) top_n) as (m & Hm & _).
    rewrite Hm in Hf.
    pose proof (elem_of_sublist _ _ _ Hf
                  (sublist_take (sorted_by_size_desc (all_files r)) m)) as Hin.
    rewrite sorted_by_size_desc_perm in Hin.
    apply scan_directory_Ok in Hscan as ->.
    destruct (aggregate_totals (records fs)) as (_ & _ & Ha). rewrite Ha in Hin.
    apply list_elem_of_fmap in Hin as (rec & -> & Hrec).
    by apply records_sizes.
  - intros Hpos.
    destruct (find_largest_files_take (all_files r) top_n) as (m & -> & Hm & _).
    rewrite (Hm Hpos), length_take.
    rewrite (Permutation_length (sorted_by_size_desc_perm (all_files r))).
    apply scan_directory_Ok in Hscan as ->.
    destruct (aggregate_totals (records fs)) as (-> & _ & ->).
    unfold file_count. rewrite length_fmap. lia.
Qed.

End model.

(** * The lowering of the examples

    The examples have ASCII names, which [example_lower] lowers as
    [str.lower] does; it has the three properties asked of [str.lower]. *)

Lemma example_lower_laws : @StrLowerLaws example_lower.
Proof.
  split.
  - done.
  - by intros [|a s].
  - done.
Qed.

#[global] Existing Instance example_lower.
#[global] Existing Instance example_lower_laws.

(** On the tree whose root has no file, the directory map has no root
    entry with count 0: it has no root entry. *)
Lemma empty_tree_has_no_root_entry :
  ¬ ∃ (r : ScanResult) (entry : DirStat),
      scan_directory empty_tree = Ok r ∧
      dir_stats r !! Pathlib.dot = Some entry ∧
      dir_count entry = 0.
Proof.
  intros (r & entry & Hr & Hentry & _).
  assert (Hinit : scan_directory empty_tree = Ok scan_init) by reflexivity.
  rewrite Hinit in Hr. injection Hr as <-. simpl in Hentry.
  by rewrite lookup_empty in Hentry.
Qed.

(** A name that ends in a bare dot has no suffix for [pathlib], so, whatever
    [str.lower] is, it is not kept apart from the names without extension:
    it gets the key of [README], the sentinel. *)
Lemma bare_dot_gets_sentinel :
  Pathlib.suffix ["notes."%string] = EmptyString ∧
  extension_key ["README"%string] = NO_EXT ∧
  ¬ (extension_key ["notes."%string] ≠ extension_key ["README"%string]) ∧
  (∀ lower : StrLower,
     ¬ (@extension_key lower ["notes."%string] ≠
        @extension_key lower ["README"%string])).
Proof.
  split; [done|]. split; [done|]. split.
  - intros Hne. by apply Hne.
  - intros lower Hne. by apply Hne.
Qed.

(** * The statements on the example trees *)

(** Scenario A: root {count 2, size 150}, [sub] {count 1, size 50}. *)
Example scenario_A_rollup :
  ∃ r, scan_directory scenario_A = Ok r ∧
       total_files r = 2 ∧ total_size r = 150 ∧
       dir_count (dir_lookup (dir_stats r) Pathlib.dot) = 2 ∧
       dir_size (dir_lookup (dir_stats r) Pathlib.dot) = 150 ∧
       dir_count (dir_lookup (dir_stats r) ["sub"%string]) = 1 ∧
       dir_size (dir_lookup (dir_stats r) ["sub"%string]) = 50 ∧
       ext_lookup (ext_stats r) ".txt" = {| ext_count := 2; ext_size := 150 |}.
Proof. eexists. split; [reflexivity|]. by vm_compute. Qed.

(** Scenario B: one group of two, the third file in no group. *)
Example scenario_B_groups :
  scan_and_resolve toy_digest scenario_B = Ok [[["x.bin"]; ["y.bin"]]]%string.
Proof. by vm_compute. Qed.

(** Scenario C: [README] and [archive.tar.gz]. *)
Example scenario_C_keys :
  extension_key ["README"%string] = NO_EXT ∧
  extension_key ["archive.tar.gz"%string] = ".gz"%string ∧
  extension_key ["Photo.JPG"%string] = ".jpg"%string ∧
  extension_key [".bashrc"%string] = NO_EXT.
Proof. by vm_compute. Qed.

(** A vanished file leaves the totals of the two others. *)
Example scenario_vanished_totals :
  ∃ r, scan_directory scenario_vanished = Ok r ∧
       total_files r = 2 ∧ total_size r = 150 ∧
       all_files r = [(["a.txt"], 100); (["b.txt"], 50)]%string ∧
       size_index r = [(100, [["a.txt"]]); (50, [["b.txt"]])]%string.
Proof. eexists. split; [reflexivity|]. by vm_compute. Qed.

Example parents_of_a_b_c :
  Pathlib.parents ["a"; "b"; "c"]%string = [["a"; "b"]; ["a"]; []]%string ∧
  ancestors ["a"; "b"; "c"]%string =
    [["a"; "b"; "c"]; ["a"; "b"]; ["a"]; []]%string ∧
  ancestors Pathlib.dot = [Pathlib.dot].
Proof. by vm_compute. Qed.

Example read_loop_in_chunks :
  read_loop 2 ["a"; "b"; "c"; "d"; "e"]%byte [] = ["a"; "b"; "c"; "d"; "e"]%byte.
Proof. reflexivity. Qed.

Lemma scan_rollup_additive_witness :
  scan_directory scenario_A = Ok (aggregate (records scenario_A)) ∧
  (dir_size (dir_lookup (dir_stats (aggregate (records scenario_A))) Pathlib.dot) =
     sum_sizes (records scenario_A) ∧
   ∀ d : Path,
     rollup_of (dir_lookup (dir_stats (aggregate (records scenario_A))) d)
               (under d (records scenario_A)) ∧
     (is_Some (dir_stats (aggregate (records scenario_A)) !! d) ↔
      under d (records scenario_A) ≠ [])).
Proof.
  split; [reflexivity|].
  apply (scan_rollup_additive scenario_A). reflexivity.
Defined.

Lemma duplicates_group_equal_content_witness :
  (scan_and_resolve toy_digest scenario_B = Ok [[["x.bin"]; ["y.bin"]]]%string ∧
   NoDup (listed scenario_B)) ∧
  ((∀ g : list Path, g ∈ [[["x.bin"]; ["y.bin"]]]%string → (2 ≤ length g)%nat) ∧
   (∀ (p q : Path) (size : Z) (content : list byte),
      p ∈ listed scenario_B → q ∈ listed scenario_B → p ≠ q →
      stat_size scenario_B p = Ok size → stat_size scenario_B q = Ok size →
      read_bytes scenario_B p = Ok content →
      read_bytes scenario_B q = Ok content →
      ∃ (i : nat) (g : list Path),
        [[["x.bin"]; ["y.bin"]]]%string !! i = Some g ∧ p ∈ g ∧ q ∈ g ∧
        ∀ (j : nat) (g' : list Path),
          [[["x.bin"]; ["y.bin"]]]%string !! j = Some g' →
          p ∈ g' ∨ q ∈ g' → j = i) ∧
   (∀ (p q : Path) (cp cq : list byte),
      read_bytes scenario_B p = Ok cp → read_bytes scenario_B q = Ok cq →
      toy_digest cp ≠ toy_digest cq →
      ∀ g : list Path, g ∈ [[["x.bin"]; ["y.bin"]]]%string → ¬ (p ∈ g ∧ q ∈ g))).
Proof.
  assert (Hrun : scan_and_resolve toy_digest scenario_B =
                 Ok [[["x.bin"]; ["y.bin"]]]%string) by (vm_compute; reflexivity).
  assert (Hnd : NoDup (listed scenario_B)) by (by apply (bool_decide_unpack _)).
  split; [by split|].
  exact (duplicates_group_equal_content toy_digest scenario_B _ Hrun Hnd).
Defined.

Lemma extension_sums_match_totals_witness :
  scan_directory scenario_A = Ok (aggregate (records scenario_A)) ∧
  (sum_ext_counts (ext_stats (aggregate (records scenario_A))) =
     total_files (aggregate (records scenario_A)) ∧
   sum_ext_sizes (ext_stats (aggregate (records scenario_A))) =
     total_size (aggregate (records scenario_A)) ∧
   ∀ (d : Path) (entry : DirStat),
     dir_stats (aggregate (records scenario_A)) !! d = Some entry →
     sum_ext_counts (dir_ext entry) = dir_count entry ∧
     sum_ext_sizes (dir_ext entry) = dir_size entry).
Proof.
  split; [reflexivity|].
  apply (extension_sums_match_totals scenario_A). reflexivity.
Defined.

Lemma empty_tree_scan_witness :
  (∀ e, e ∈ walk empty_tree → e.2 = []) ∧
  ∃ r : ScanResult,
    scan_directory empty_tree = Ok r ∧
    total_files r = 0 ∧
    total_size r = 0 ∧
    (∀ hasher, find_duplicate_candidates hasher (size_index r) = []) ∧
    dir_stats r = ∅ ∧
    dir_stats r !! Pathlib.dot = None ∧
    dir_count (dir_lookup (dir_stats r) Pathlib.dot) = 0.
Proof.
  assert (Hempty : ∀ e, e ∈ walk empty_tree → e.2 = []).
  { apply Forall_forall. by apply (bool_decide_unpack _). }
  split; [done|]. exact (empty_tree_scan empty_tree Hempty).
Defined.

Lemma extension_key_final_suffix_witness :
  no_dot "gz" ∧
  extension_key (Pathlib.joinpath ["backups"%string] "archive.tar.gz") =
  ".gz"%string.
Proof.
  assert (Hgz : no_dot "gz") by (by vm_compute).
  split; [done|].
  exact (proj1 (proj2 extension_key_final_suffix)
           ["backups"%string] "archive.tar"%string "gz"%string Hgz).
Defined.

Lemma sole_occupant_not_hashed_witness :
  (∀ (size : Z) (paths : list Path),
     (size, paths) ∈ example_index → ["a.txt"%string] ∈ paths →
     paths = [["a.txt"%string]]) ∧
  (["a.txt"%string] ∉ hashed (resolve example_hasher example_index)) ∧
  (∀ g : list Path,
     g ∈ find_duplicate_candidates example_hasher example_index →
     ["a.txt"%string] ∉ g).
Proof.
  assert (Hsole : ∀ (size : Z) (paths : list Path),
    (size, paths) ∈ example_index → ["a.txt"%string] ∈ paths →
    paths = [["a.txt"%string]]).
  { assert (Hall : Forall (λ sp : Z * list Path,
      ["a.txt"%string] ∈ sp.2 → sp.2 = [["a.txt"%string]]) example_index)
      by (by apply (bool_decide_unpack _)).
    intros size paths Hin.
    exact (proj1 (Forall_forall _ _) Hall (size, paths) Hin). }
  split; [done|].
  exact (sole_occupant_not_hashed example_hasher example_index _ Hsole).
Defined.

Lemma hash_failure_drops_path_witness :
  example_hasher ["u.bin"%string] = Raise PermissionError ∧
  find_duplicate_candidates example_hasher
    ([(100, [["a.txt"%string]])] ++
     (200, [["x.bin"%string]] ++ ["u.bin"%string] :: [["y.bin"%string]]) :: []) =
  find_duplicate_candidates example_hasher
    ([(100, [["a.txt"%string]])] ++
     (200, [["x.bin"%string]] ++ [["y.bin"%string]]) :: []) ∧
  (∀ q : Path, q ∈ [["x.bin"%string]] ++ [["y.bin"%string]] →
     q ∈ hashed (resolve example_hasher
       ([(100, [["a.txt"%string]])] ++
        (200, [["x.bin"%string]] ++ ["u.bin"%string] :: [["y.bin"%string]]) :: []))).
Proof.
  split; [reflexivity|].
  apply (hash_failure_drops_path example_hasher
           [(100, [["a.txt"%string]])] [] 200
           [["x.bin"%string]] [["y.bin"%string]] ["u.bin"%string] PermissionError).
  reflexivity.
Defined.

Lemma stat_failure_skips_entry_witness :
  (walk scenario_vanished =
     [] ++ (Pathlib.dot, ["a.txt"%string] ++ "gone.txt"%string :: ["b.txt"%string]) :: [] ∧
   skipped scenario_vanished (Pathlib.joinpath Pathlib.dot "gone.txt")) ∧
  (scan_directory scenario_vanished =
     scan_directory
       (with_walk scenario_vanished
          ([] ++ (Pathlib.dot, ["a.txt"%string] ++ ["b.txt"%string]) :: [])) ∧
   (Pathlib.joinpath Pathlib.dot "gone.txt" ∉ rec_path <$> records scenario_vanished) ∧
   ((∀ path, path ∈ listed scenario_vanished →
       stat_size scenario_vanished path ≠ Raise OtherOSError) →
    ∃ r : ScanResult,
      scan_directory scenario_vanished = Ok r ∧
      total_files r = file_count (records scenario_vanished) ∧
      total_size r = sum_sizes (records scenario_vanished) ∧
      all_files r =
        (λ rec, (rec_path rec, rec_size rec)) <$> records scenario_vanished)).
Proof.
  assert (Hw : walk scenario_vanished =
    [] ++ (Pathlib.dot, ["a.txt"%string] ++ "gone.txt"%string :: ["b.txt"%string]) :: [])
    by reflexivity.
  assert (Hs : skipped scenario_vanished (Pathlib.joinpath Pathlib.dot "gone.txt"))
    by (left; reflexivity).
  split; [by split|].
  exact (stat_failure_skips_entry scenario_vanished [] [] Pathlib.dot
           ["a.txt"%string] ["b.txt"%string] "gone.txt"%string Hw Hs).
Defined.

Lemma resolution_deterministic_witness :
  (walk scenario_B = walk scenario_B_again ∧
   (∀ p, p ∈ listed scenario_B →
      stat_size scenario_B p = stat_size scenario_B_again p) ∧
   (∀ p, p ∈ listed scenario_B →
      read_bytes scenario_B p = read_bytes scenario_B_again p)) ∧
  scan_and_resolve toy_digest scenario_B =
  scan_and_resolve toy_digest scenario_B_again.
Proof.
  assert (Hw : walk scenario_B = walk scenario_B_again) by reflexivity.
  assert (Hstat : ∀ p, p ∈ listed scenario_B →
    stat_size scenario_B p = stat_size scenario_B_again p).
  { apply Forall_forall. by apply (bool_decide_unpack _). }
  assert (Hread : ∀ p, p ∈ listed scenario_B →
    read_bytes scenario_B p = read_bytes scenario_B_again p).
  { apply Forall_forall. by apply (bool_decide_unpack _). }
  split; [by repeat split|].
  exact (resolution_deterministic toy_digest scenario_B scenario_B_again
           Hw Hstat Hread).
Defined.

Lemma duplicate_groups_disjoint_witness :
  NoDup (concat example_index.*2) ∧
  NoDup (concat (find_duplicate_candidates example_hasher example_index)) ∧
  (∀ (i j : nat) (g g' : list Path) (p : Path),
     find_duplicate_candidates example_hasher example_index !! i = Some g →
     find_duplicate_candidates example_hasher example_index !! j = Some g' →
     p ∈ g → p ∈ g' → i = j) ∧
  (∀ g : list Path,
     g ∈ find_duplicate_candidates example_hasher example_index →
     ∃ (size : Z) (paths : list Path) (h : string),
       (size, paths) ∈ example_index ∧
       ∀ p : Path, p ∈ g → p ∈ paths ∧ example_hasher p = Ok h).
Proof.
  assert (Hnd : NoDup (concat example_index.*2))
    by (by apply (bool_decide_unpack _)).
  split; [done|].
  exact (duplicate_groups_disjoint example_hasher example_index Hnd).
Defined.

(** * The further properties on the example trees *)

Example largest_of_example_files :
  find_largest_files example_files 3 = [(["d"], 9); (["b"], 5); (["e"], 5)]%string ∧
  find_largest_files example_files (-1) =
    [(["d"], 9); (["b"], 5); (["e"], 5); (["a"], 3)]%string ∧
  find_largest_files example_files 10 =
    [(["d"], 9); (["b"], 5); (["e"], 5); (["a"], 3); (["c"], 3)]%string.
Proof. by vm_compute. Qed.

Example report_of_example_groups :
  print_duplicates example_str_path example_groups 1 =
    [nl +:+ "=== Possible Duplicates ===";
     "Showing up to 1 groups of duplicates:" +:+ nl;
     "Group 1 (2 files):"; "  - x.bin"; "  - y.bin"; ""]%string.
Proof. by vm_compute. Qed.

Example scan_of_scenario_broken :
  scan_directory scenario_broken = Raise OtherOSError.
Proof. reflexivity. Qed.

Lemma scan_file_list_witness :
  scan_directory scenario_vanished = Ok (aggregate (records scenario_vanished)) ∧
  all_files (aggregate (records scenario_vanished)) =
    omap (stat_file scenario_vanished) (listed scenario_vanished) ∧
  total_files (aggregate (records scenario_vanished)) =
    Z.of_nat (length (all_files (aggregate (records scenario_vanished)))) ∧
  total_size (aggregate (records scenario_vanished)) =
    sum_file_sizes (all_files (aggregate (records scenario_vanished))).
Proof.
  split; [reflexivity|].
  apply (scan_file_list scenario_vanished). reflexivity.
Defined.

Lemma root_entry_is_global_witness :
  scan_directory scenario_A = Ok (aggregate (records scenario_A)) ∧
  dir_lookup (dir_stats (aggregate (records scenario_A))) Pathlib.dot =
  {| dir_count := total_files (aggregate (records scenario_A));
     dir_size := total_size (aggregate (records scenario_A));
     dir_ext := ext_stats (aggregate (records scenario_A)) |}.
Proof.
  split; [reflexivity|].
  apply (root_entry_is_global scenario_A). reflexivity.
Defined.

Lemma global_extension_stats_witness :
  scan_directory scenario_A = Ok (aggregate (records scenario_A)) ∧
  ∀ ext : string,
    ext_lookup (ext_stats (aggregate (records scenario_A))) ext =
      {| ext_count := file_count (with_ext ext (records scenario_A));
         ext_size := sum_sizes (with_ext ext (records scenario_A)) |} ∧
    (is_Some (ext_stats (aggregate (records scenario_A)) !! ext) ↔
     with_ext ext (records scenario_A) ≠ []).
Proof.
  split; [reflexivity|].
  apply (global_extension_stats scenario_A). reflexivity.
Defined.

Lemma size_index_partition_witness :
  scan_directory scenario_B = Ok (aggregate (records scenario_B)) ∧
  NoDup (size_index (aggregate (records scenario_B))).*1 ∧
  ∀ (size : Z) (paths : list Path),
    (size, paths) ∈ size_index (aggregate (records scenario_B)) ↔
    paths ≠ [] ∧
    paths = (filter (λ f : Path * Z, f.2 = size)
               (all_files (aggregate (records scenario_B)))).*1.
Proof.
  split; [reflexivity|].
  apply (size_index_partition scenario_B). reflexivity.
Defined.

Lemma scan_raises_uncaught_only_witness :
  (["loop"%string] ∈ listed scenario_broken ∧
   stat_size scenario_broken ["loop"%string] = Raise OtherOSError) ∧
  scan_directory scenario_broken = Raise OtherOSError.
Proof.
  assert (Hloop : ["loop"%string] ∈ listed scenario_broken)
    by (by apply (bool_decide_unpack _)).
  assert (Hstat : stat_size scenario_broken ["loop"%string] = Raise OtherOSError)
    by reflexivity.
  split; [done|].
  apply (proj1 (scan_raises_uncaught_only scenario_broken)).
  by exists ["loop"%string].
Defined.

Lemma subdirectory_totals_bounded_witness :
  (scan_directory scenario_A = Ok (aggregate (records scenario_A)) ∧
   Pathlib.dot `prefix_of` ["sub"%string]) ∧
  0 ≤ dir_count (dir_lookup (dir_stats (aggregate (records scenario_A))) ["sub"%string])
    ≤ dir_count (dir_lookup (dir_stats (aggregate (records scenario_A))) Pathlib.dot) ∧
  ((∀ (path : Path) (size : Z),
      path ∈ listed scenario_A → stat_size scenario_A path = Ok size → 0 ≤ size) →
   0 ≤ dir_size (dir_lookup (dir_stats (aggregate (records scenario_A))) ["sub"%string])
     ≤ dir_size (dir_lookup (dir_stats (aggregate (records scenario_A))) Pathlib.dot)).
Proof.
  assert (Hscan : scan_directory scenario_A = Ok (aggregate (records scenario_A)))
    by reflexivity.
  assert (Hsub : Pathlib.dot `prefix_of` ["sub"%string])
    by (by apply (bool_decide_unpack _)).
  split; [done|].
  exact (subdirectory_totals_bounded scenario_A _ Pathlib.dot ["sub"%string] Hscan Hsub).
Defined.

Lemma extension_key_ignores_case_witness :
  (isascii "Photo.JPG" = true ∧ isascii "photo.jpg" = true ∧
   ascii_lower "Photo.JPG" = ascii_lower "photo.jpg") ∧
  extension_key (Pathlib.joinpath ["holiday"%string] "Photo.JPG") =
  extension_key (Pathlib.joinpath Pathlib.dot "photo.jpg").
Proof.
  split; [by repeat split|].
  apply (extension_key_ignores_case ["holiday"%string] Pathlib.dot
           "Photo.JPG" "photo.jpg"); reflexivity.
Defined.


Lemma groups_hold_scanned_files_witness :
  (scan_and_resolve toy_digest scenario_B = Ok [[["x.bin"]; ["y.bin"]]]%string ∧
   [["x.bin"]; ["y.bin"]]%string ∈ [[["x.bin"]; ["y.bin"]]]%string) ∧
  ∃ (size : Z) (h : string),
    ∀ p : Path, p ∈ [["x.bin"]; ["y.bin"]]%string →
      p ∈ listed scenario_B ∧ stat_size scenario_B p = Ok size ∧
      ∃ content : list byte,
        read_bytes scenario_B p = Ok content ∧ toy_digest content = h.
Proof.
  assert (Hrun : scan_and_resolve toy_digest scenario_B =
                 Ok [[["x.bin"]; ["y.bin"]]]%string) by (vm_compute; reflexivity).
  assert (Hg : [["x.bin"]; ["y.bin"]]%string ∈ [[["x.bin"]; ["y.bin"]]]%string)
    by (by apply (bool_decide_unpack _)).
  split; [exact (conj Hrun Hg)|].
  exact (groups_hold_scanned_files toy_digest scenario_B _ Hrun _ Hg).
Defined.

Lemma largest_files_are_largest_witness :
  0 ≤ 3 ∧
  length (find_largest_files example_files 3) =
    Nat.min (Z.to_nat 3) (length example_files) ∧
  StronglySorted size_desc (find_largest_files example_files 3) ∧
  ∃ rest : list (Path * Z),
    find_largest_files example_files 3 ++ rest ≡ₚ example_files ∧
    ∀ x y : Path * Z,
      x ∈ find_largest_files example_files 3 → y ∈ rest → y.2 ≤ x.2.
Proof.
  assert (Hpos : 0 ≤ 3) by lia.
  split; [done|]. exact (largest_files_are_largest example_files 3 Hpos).
Defined.

Lemma largest_files_slice_edges_witness :
  -2 < 0 ∧
  find_largest_files example_files (-2) =
    take (Z.to_nat (Z.of_nat (length example_files) + -2))
         (sorted_by_size_desc example_files) ∧
  Z.of_nat (length (find_largest_files example_files (-2))) =
    Z.max 0 (Z.of_nat (length example_files) + -2).
Proof.
  assert (Hneg : -2 < 0) by lia.
  split; [done|].
  exact (proj2 (proj2 (proj2 (largest_files_slice_edges example_files (-2)))) Hneg).
Defined.

Lemma print_duplicates_shows_first_groups_witness :
  (example_groups ≠ [] ∧ 0 ≤ 1) ∧
  print_duplicates example_str_path example_groups 1 =
    (nl +:+ "=== Possible Duplicates ===") ::
    ("Showing up to " +:+ pretty 1 +:+ " groups of duplicates:" +:+ nl) ::
    concat (imap (λ j group, group_block example_str_path (1 + Z.of_nat j) group)
              (take (Z.to_nat 1) example_groups)) ∧
  length (print_duplicates example_str_path example_groups 1) =
    (2 + length (concat (take (Z.to_nat 1) example_groups))
       + 2 * length (take (Z.to_nat 1) example_groups))%nat ∧
  (∀ (j : nat) (g : list Path),
     take (Z.to_nat 1) example_groups !! j = Some g →
     ("Group " +:+ pretty (1 + Z.of_nat j) +:+ " (" +:+
        pretty (Z.of_nat (length g)) +:+ " files):")
     ∈ print_duplicates example_str_path example_groups 1) ∧
  (∀ p : Path,
     path_line example_str_path p
       ∈ print_duplicates example_str_path example_groups 1 ↔
     ∃ (g : list Path) (q : Path),
       g ∈ take (Z.to_nat 1) example_groups ∧ q ∈ g ∧
       example_str_path q = example_str_path p).
Proof.
  assert (Hne : example_groups ≠ []) by done.
  assert (Hpos : 0 ≤ 1) by lia.
  split; [done|].
  exact (proj2 (print_duplicates_shows_first_groups example_str_path
                  example_groups 1) Hne Hpos).
Defined.


Lemma grouped_iff_same_size_and_digest_witness :
  (scan_and_resolve toy_digest scenario_B = Ok [[["x.bin"]; ["y.bin"]]]%string ∧
   ["x.bin"%string] ∈ listed scenario_B ∧ ["z.bin"%string] ∈ listed scenario_B ∧
   ["x.bin"%string] ≠ ["z.bin"%string]) ∧
  ((∃ g : list Path,
      g ∈ [[["x.bin"]; ["y.bin"]]]%string ∧
      ["x.bin"%string] ∈ g ∧ ["z.bin"%string] ∈ g) ↔
   ∃ (size : Z) (cp cq : list byte),
     stat_size scenario_B ["x.bin"%string] = Ok size ∧
     stat_size scenario_B ["z.bin"%string] = Ok size ∧
     read_bytes scenario_B ["x.bin"%string] = Ok cp ∧
     read_bytes scenario_B ["z.bin"%string] = Ok cq ∧
     toy_digest cp = toy_digest cq).
Proof.
  assert (Hrun : scan_and_resolve toy_digest scenario_B =
                 Ok [[["x.bin"]; ["y.bin"]]]%string) by (vm_compute; reflexivity).
  assert (Hx : ["x.bin"%string] ∈ listed scenario_B)
    by (by apply (bool_decide_unpack _)).
  assert (Hz : ["z.bin"%string] ∈ listed scenario_B)
    by (by apply (bool_decide_unpack _)).
  assert (Hne : ["x.bin"%string] ≠ ["z.bin"%string]) by done.
  split; [exact (conj Hrun (conj Hx (conj Hz Hne)))|].
  exact (grouped_iff_same_size_and_digest toy_digest scenario_B _ _ _
           Hrun Hx Hz Hne).
Defined.

Lemma largest_files_of_scan_witness :
  scan_directory scenario_A = Ok (aggregate (records scenario_A)) ∧
  (∀ f : Path * Z,
     f ∈ find_largest_files (all_files (aggregate (records scenario_A))) 1 →
     f.1 ∈ listed scenario_A ∧ stat_size scenario_A f.1 = Ok f.2) ∧
  (0 ≤ 1 →
   Z.of_nat (length (find_largest_files
                       (all_files (aggregate (records scenario_A))) 1)) =
   Z.min 1 (total_files (aggregate (records scenario_A)))).
Proof.
  split; [reflexivity|].
  apply (largest_files_of_scan scenario_A). reflexivity.
Defined.
